(** * Verification of the websocket transport peer
    (transport/websocketpeer.go).

    The peer is a small concurrent program: an Outbound Pump
    ([sendHandler] or [sendHandlerKeepAlive]), an Inbound Pump
    ([recvHandler]), the caller of [Close], and any number of producers
    calling [Send] and [TrySend].  They communicate through the buffered
    channel [wr], the unbuffered channel [rd] and the two signal channels
    [closed] and [writerDone].

    The embedding is an interleaving semantics.  Every goroutine is a
    program counter naming the statement it is about to execute (or is
    blocked in); an [Event] is one atomic statement of one goroutine,
    together with whatever the environment chooses at that statement (the
    result of a read or a write on the connection, the expiry of a timer).
    [exec] runs one event and returns [None] when the statement cannot
    proceed in the given state (a blocked channel operation).  [run] folds
    [exec] over a schedule.

    The connection and the codec are outside this file.  The result of
    every read and write is chosen by the schedule, with no constraint, so
    that what is proved of all schedules holds of every connection.  Close
    is called at most once per peer, as its contract says; a panic ends
    the process, and no event runs after it. *)

From Stdlib Require Import ZArith Lia String.
From Stdlib.Strings Require Byte.
From stdpp Require Import base tactics option list.

Local Open Scope Z_scope.

(** ** Constants *)

(** Frame kinds of the websocket library (the RFC 6455 opcodes). *)
Definition TextMessage : Z := 1.
Definition BinaryMessage : Z := 2.
Definition CloseMessage : Z := 8.
Definition PingMessage : Z := 9.
Definition PongMessage : Z := 10.
Definition CloseNormalClosure : Z := 1000.

Definition jsonWebsocketProtocol : string := "wamp.2.json".
Definition msgpackWebsocketProtocol : string := "wamp.2.msgpack".
Definition cborWebsocketProtocol : string := "wamp.2.cbor".

Definition outQueueSize : nat := 16.

(** [time.Duration] counts nanoseconds in a signed 64-bit integer. *)
Definition Duration := Z.
Definition Second : Duration := 1000000000.
Definition ctrlTimeout : Duration := 5 * Second.

Definition bytes := list Byte.byte.

(** [atomic.AddInt32] wraps around in two's complement. *)
Definition wrap32 (z : Z) : Z := (z + 2 ^ 31) mod 2 ^ 32 - 2 ^ 31.

(** [websocket.FormatCloseMessage]: the close code in big endian followed
    by the text. *)
Definition FormatCloseMessage (code : Z) (text : string) : bytes :=
  match Byte.of_N (Z.to_N (Z.land (Z.shiftr code 8) 255)),
        Byte.of_N (Z.to_N (Z.land code 255)) with
  | Some hi, Some lo => hi :: lo :: list_byte_of_string text
  | _, _ => list_byte_of_string text
  end.

Definition closeMsg : bytes := FormatCloseMessage CloseNormalClosure "goodbye".
Definition pingMsg : bytes := list_byte_of_string "keepalive".

Arguments wrap32 : simpl never.
Arguments closeMsg : simpl never.
Arguments pingMsg : simpl never.
Arguments outQueueSize : simpl never.
Arguments Second : simpl never.

(** ** The peer and its goroutines *)

Section Peer.

(** The codec and the message type come from the packages [serialize] and
    [wamp]; the peer only calls them.  An error result is [None]. *)
Context {Message : Type}.
Variable Serialize : Message -> option bytes.
Variable Deserialize : bytes -> option Message.
Variable IsGoodbyeAck : Message -> bool.

(** The goroutines of a peer.  The tag is kept with every enqueue and with
    every call of [conn.Close], to tell the call sites apart. *)
Inductive Task := Producer | Closer | InboundPump | OutboundPump.

(** Calls on [w.conn], in the order they are made.  [ok] is the result the
    connection gave; [src] is the message a data frame encodes ([None] for
    a ping), kept to tell data frames from pings whatever [payloadType]
    is. *)
Inductive ConnOp :=
| WriteMessage (kind : Z) (payload : bytes) (ok : bool)
    (src : option Message)
| WriteControl (kind : Z) (payload : bytes) (ok : bool)
| ConnClose (by_task : Task).

Inductive LogLine :=
| LogSerializeErr (m : Message)
| LogWriteErr (m : Message)
| LogDeserializeErr (b : bytes)
| LogText (text : string).

(** Why the Outbound Pump returned. *)
Inductive ExitReason :=
| ExSentinel      (* dequeued nil *)
| ExChanClosed    (* wr closed and drained *)
| ExWriteErr      (* WriteMessage of a data frame failed *)
| ExPongTimeout   (* two pings unanswered: connection closed *)
| ExPingErr.      (* WriteMessage of a ping failed *)

Inductive SendPC :=
| SStart (keepAlive : Duration)   (* goroutine spawned, body not entered *)
| SIdle                           (* at the receive on wr (and ticker.C) *)
| SWriting (m : Message) (b : bytes)  (* at conn.WriteMessage *)
| SExited (r : ExitReason).

Inductive RecvPC :=
| RRead                   (* in conn.ReadMessage *)
| REnq                    (* at w.wr <- nil *)
| RWait                   (* at <-w.writerDone *)
| RDeliver (m : Message)  (* at select { w.rd <- msg; <-w.closed } *)
| RGrace (m : Message)    (* at select { w.rd <- msg; <-time.After } *)
| RDone.

Inductive ClosePC :=
| CNotCalled
| CEnq      (* at w.wr <- nil *)
| CWait     (* at <-w.writerDone *)
| CSignal   (* at close(w.closed) *)
| CCtrl     (* at w.conn.WriteControl *)
| CConn     (* at w.conn.Close *)
| CDone.

(** What a [TrySend] call returned. *)
Inductive TryRet :=
| TryFast (m : option Message)     (* first select: nil error *)
| TrySlow (m : option Message)     (* second select: nil error *)
| TryBlocked (m : option Message). (* errors.New("blocked") *)

(** The channels and the counter are the fields of [websocketPeer] and the
    local [pendingPongs]; [trywait] holds the messages of the [TrySend]
    calls that are in their second select.  [wr_closed] is there for the
    receive on a closed channel, which both send loops handle; no
    statement closes [wr].  The fields from [conn] on are history: they
    record what has happened and no statement reads them. *)
Record State := mkState {
  wr : list (option Message);
  wr_closed : bool;
  closed : bool;
  writerDone : bool;
  rd_closed : bool;
  pendingPongs : Z;
  pongHandler : bool;
  ticker : option Duration;
  send_pc : SendPC;
  recv_pc : RecvPC;
  close_pc : ClosePC;
  trywait : list (option Message);
  panicked : bool;
  conn : list ConnOp;
  log : list LogLine;
  delivered : list Message;
  enq : list (Task * option Message);
  deq : list (option Message);
  reads : list (Z * bytes);
  returns : list TryRet
}.

Definition set_wr (v : list (option Message)) (s : State) : State :=
  {| wr := v; wr_closed := wr_closed s; closed := closed s; writerDone :=
     writerDone s; rd_closed := rd_closed s; pendingPongs := pendingPongs s;
     pongHandler := pongHandler s; ticker := ticker s; send_pc := send_pc s;
     recv_pc := recv_pc s; close_pc := close_pc s; trywait := trywait s;
     panicked := panicked s; conn := conn s; log := log s; delivered :=
     delivered s; enq := enq s; deq := deq s; reads := reads s; returns :=
     returns s |}.
Definition set_closed (v : bool) (s : State) : State :=
  {| wr := wr s; wr_closed := wr_closed s; closed := v; writerDone :=
     writerDone s; rd_closed := rd_closed s; pendingPongs := pendingPongs s;
     pongHandler := pongHandler s; ticker := ticker s; send_pc := send_pc s;
     recv_pc := recv_pc s; close_pc := close_pc s; trywait := trywait s;
     panicked := panicked s; conn := conn s; log := log s; delivered :=
     delivered s; enq := enq s; deq := deq s; reads := reads s; returns :=
     returns s |}.
Definition set_writerDone (v : bool) (s : State) : State :=
  {| wr := wr s; wr_closed := wr_closed s; closed := closed s; writerDone :=
     v; rd_closed := rd_closed s; pendingPongs := pendingPongs s;
     pongHandler := pongHandler s; ticker := ticker s; send_pc := send_pc s;
     recv_pc := recv_pc s; close_pc := close_pc s; trywait := trywait s;
     panicked := panicked s; conn := conn s; log := log s; delivered :=
     delivered s; enq := enq s; deq := deq s; reads := reads s; returns :=
     returns s |}.
Definition set_rd_closed (v : bool) (s : State) : State :=
  {| wr := wr s; wr_closed := wr_closed s; closed := closed s; writerDone :=
     writerDone s; rd_closed := v; pendingPongs := pendingPongs s;
     pongHandler := pongHandler s; ticker := ticker s; send_pc := send_pc s;
     recv_pc := recv_pc s; close_pc := close_pc s; trywait := trywait s;
     panicked := panicked s; conn := conn s; log := log s; delivered :=
     delivered s; enq := enq s; deq := deq s; reads := reads s; returns :=
     returns s |}.
Definition set_pendingPongs (v : Z) (s : State) : State :=
  {| wr := wr s; wr_closed := wr_closed s; closed := closed s; writerDone :=
     writerDone s; rd_closed := rd_closed s; pendingPongs := v; pongHandler
     := pongHandler s; ticker := ticker s; send_pc := send_pc s; recv_pc :=
     recv_pc s; close_pc := close_pc s; trywait := trywait s; panicked :=
     panicked s; conn := conn s; log := log s; delivered := delivered s; enq
     := enq s; deq := deq s; reads := reads s; returns := returns s |}.
Definition set_pongHandler (v : bool) (s : State) : State :=
  {| wr := wr s; wr_closed := wr_closed s; closed := closed s; writerDone :=
     writerDone s; rd_closed := rd_closed s; pendingPongs := pendingPongs s;
     pongHandler := v; ticker := ticker s; send_pc := send_pc s; recv_pc :=
     recv_pc s; close_pc := close_pc s; trywait := trywait s; panicked :=
     panicked s; conn := conn s; log := log s; delivered := delivered s; enq
     := enq s; deq := deq s; reads := reads s; returns := returns s |}.
Definition set_ticker (v : option Z) (s : State) : State :=
  {| wr := wr s; wr_closed := wr_closed s; closed := closed s; writerDone :=
     writerDone s; rd_closed := rd_closed s; pendingPongs := pendingPongs s;
     pongHandler := pongHandler s; ticker := v; send_pc := send_pc s;
     recv_pc := recv_pc s; close_pc := close_pc s; trywait := trywait s;
     panicked := panicked s; conn := conn s; log := log s; delivered :=
     delivered s; enq := enq s; deq := deq s; reads := reads s; returns :=
     returns s |}.
Definition set_send_pc (v : SendPC) (s : State) : State :=
  {| wr := wr s; wr_closed := wr_closed s; closed := closed s; writerDone :=
     writerDone s; rd_closed := rd_closed s; pendingPongs := pendingPongs s;
     pongHandler := pongHandler s; ticker := ticker s; send_pc := v; recv_pc
     := recv_pc s; close_pc := close_pc s; trywait := trywait s; panicked :=
     panicked s; conn := conn s; log := log s; delivered := delivered s; enq
     := enq s; deq := deq s; reads := reads s; returns := returns s |}.
Definition set_recv_pc (v : RecvPC) (s : State) : State :=
  {| wr := wr s; wr_closed := wr_closed s; closed := closed s; writerDone :=
     writerDone s; rd_closed := rd_closed s; pendingPongs := pendingPongs s;
     pongHandler := pongHandler s; ticker := ticker s; send_pc := send_pc s;
     recv_pc := v; close_pc := close_pc s; trywait := trywait s; panicked :=
     panicked s; conn := conn s; log := log s; delivered := delivered s; enq
     := enq s; deq := deq s; reads := reads s; returns := returns s |}.
Definition set_close_pc (v : ClosePC) (s : State) : State :=
  {| wr := wr s; wr_closed := wr_closed s; closed := closed s; writerDone :=
     writerDone s; rd_closed := rd_closed s; pendingPongs := pendingPongs s;
     pongHandler := pongHandler s; ticker := ticker s; send_pc := send_pc s;
     recv_pc := recv_pc s; close_pc := v; trywait := trywait s; panicked :=
     panicked s; conn := conn s; log := log s; delivered := delivered s; enq
     := enq s; deq := deq s; reads := reads s; returns := returns s |}.
Definition set_trywait (v : list (option Message)) (s : State) : State :=
  {| wr := wr s; wr_closed := wr_closed s; closed := closed s; writerDone :=
     writerDone s; rd_closed := rd_closed s; pendingPongs := pendingPongs s;
     pongHandler := pongHandler s; ticker := ticker s; send_pc := send_pc s;
     recv_pc := recv_pc s; close_pc := close_pc s; trywait := v; panicked :=
     panicked s; conn := conn s; log := log s; delivered := delivered s; enq
     := enq s; deq := deq s; reads := reads s; returns := returns s |}.
Definition set_panicked (v : bool) (s : State) : State :=
  {| wr := wr s; wr_closed := wr_closed s; closed := closed s; writerDone :=
     writerDone s; rd_closed := rd_closed s; pendingPongs := pendingPongs s;
     pongHandler := pongHandler s; ticker := ticker s; send_pc := send_pc s;
     recv_pc := recv_pc s; close_pc := close_pc s; trywait := trywait s;
     panicked := v; conn := conn s; log := log s; delivered := delivered s;
     enq := enq s; deq := deq s; reads := reads s; returns := returns s |}.
Definition set_conn (v : list ConnOp) (s : State) : State :=
  {| wr := wr s; wr_closed := wr_closed s; closed := closed s; writerDone :=
     writerDone s; rd_closed := rd_closed s; pendingPongs := pendingPongs s;
     pongHandler := pongHandler s; ticker := ticker s; send_pc := send_pc s;
     recv_pc := recv_pc s; close_pc := close_pc s; trywait := trywait s;
     panicked := panicked s; conn := v; log := log s; delivered := delivered
     s; enq := enq s; deq := deq s; reads := reads s; returns := returns s
     |}.
Definition set_log (v : list LogLine) (s : State) : State :=
  {| wr := wr s; wr_closed := wr_closed s; closed := closed s; writerDone :=
     writerDone s; rd_closed := rd_closed s; pendingPongs := pendingPongs s;
     pongHandler := pongHandler s; ticker := ticker s; send_pc := send_pc s;
     recv_pc := recv_pc s; close_pc := close_pc s; trywait := trywait s;
     panicked := panicked s; conn := conn s; log := v; delivered :=
     delivered s; enq := enq s; deq := deq s; reads := reads s; returns :=
     returns s |}.
Definition set_delivered (v : list Message) (s : State) : State :=
  {| wr := wr s; wr_closed := wr_closed s; closed := closed s; writerDone :=
     writerDone s; rd_closed := rd_closed s; pendingPongs := pendingPongs s;
     pongHandler := pongHandler s; ticker := ticker s; send_pc := send_pc s;
     recv_pc := recv_pc s; close_pc := close_pc s; trywait := trywait s;
     panicked := panicked s; conn := conn s; log := log s; delivered := v;
     enq := enq s; deq := deq s; reads := reads s; returns := returns s |}.
Definition set_enq (v : list (Task * option Message)) (s : State) : State :=
  {| wr := wr s; wr_closed := wr_closed s; closed := closed s; writerDone :=
     writerDone s; rd_closed := rd_closed s; pendingPongs := pendingPongs s;
     pongHandler := pongHandler s; ticker := ticker s; send_pc := send_pc s;
     recv_pc := recv_pc s; close_pc := close_pc s; trywait := trywait s;
     panicked := panicked s; conn := conn s; log := log s; delivered :=
     delivered s; enq := v; deq := deq s; reads := reads s; returns :=
     returns s |}.
Definition set_deq (v : list (option Message)) (s : State) : State :=
  {| wr := wr s; wr_closed := wr_closed s; closed := closed s; writerDone :=
     writerDone s; rd_closed := rd_closed s; pendingPongs := pendingPongs s;
     pongHandler := pongHandler s; ticker := ticker s; send_pc := send_pc s;
     recv_pc := recv_pc s; close_pc := close_pc s; trywait := trywait s;
     panicked := panicked s; conn := conn s; log := log s; delivered :=
     delivered s; enq := enq s; deq := v; reads := reads s; returns :=
     returns s |}.
Definition set_reads (v : list (Z * bytes)) (s : State) : State :=
  {| wr := wr s; wr_closed := wr_closed s; closed := closed s; writerDone :=
     writerDone s; rd_closed := rd_closed s; pendingPongs := pendingPongs s;
     pongHandler := pongHandler s; ticker := ticker s; send_pc := send_pc s;
     recv_pc := recv_pc s; close_pc := close_pc s; trywait := trywait s;
     panicked := panicked s; conn := conn s; log := log s; delivered :=
     delivered s; enq := enq s; deq := deq s; reads := v; returns := returns
     s |}.
Definition set_returns (v : list TryRet) (s : State) : State :=
  {| wr := wr s; wr_closed := wr_closed s; closed := closed s; writerDone :=
     writerDone s; rd_closed := rd_closed s; pendingPongs := pendingPongs s;
     pongHandler := pongHandler s; ticker := ticker s; send_pc := send_pc s;
     recv_pc := recv_pc s; close_pc := close_pc s; trywait := trywait s;
     panicked := panicked s; conn := conn s; log := log s; delivered :=
     delivered s; enq := enq s; deq := deq s; reads := reads s; returns := v
     |}.

(** [payloadType] is fixed when the peer is made. *)
Variable payloadType : Z.

(** A send on [wr] can proceed when the buffer has room. *)
Definition room (s : State) : bool :=
  Nat.ltb (length (wr s)) outQueueSize.

(** [w.wr <- m] by task [t].  A send on a closed channel panics. *)
Definition enqueue (t : Task) (m : option Message) (s : State) : State :=
  if wr_closed s then set_panicked true s
  else set_enq (enq s ++ [(t, m)]) (set_wr (wr s ++ [m]) s).

(** Return of the Outbound Pump: the deferred [ticker.Stop] and
    [close(w.writerDone)] run. *)
Definition send_exit (r : ExitReason) (s : State) : State :=
  set_send_pc (SExited r) (set_ticker None (set_writerDone true s)).

(** Return of the Inbound Pump: the deferred [w.conn.Close] and then
    [close(w.rd)] run. *)
Definition recv_exit (s : State) : State :=
  set_recv_pc RDone
    (set_rd_closed true (set_conn (conn s ++ [ConnClose InboundPump]) s)).

Definition say (l : LogLine) (s : State) : State :=
  set_log (log s ++ [l]) s.

Definition call (op : ConnOp) (s : State) : State :=
  set_conn (conn s ++ [op]) s.

Definition ret (r : TryRet) (s : State) : State :=
  set_returns (returns s ++ [r]) s.

(** The [case <-ticker.C] arm of [sendHandlerKeepAlive]. *)
Definition onTick (ping_ok : bool) (s : State) : State :=
  if 2 <=? pendingPongs s then
    send_exit ExPongTimeout
      (call (ConnClose OutboundPump)
         (say (LogText "peer not responging to pings, closing websocket") s))
  else
    let s1 := call (WriteMessage PingMessage pingMsg ping_ok None) s in
    if ping_ok then set_pendingPongs (wrap32 (pendingPongs s1 + 1)) s1
    else send_exit ExPingErr s1.

(** The body of both send loops for an item received from [wr]. *)
Definition onItem (item : option Message) (s : State) : State :=
  match item with
  | None => send_exit ExSentinel s
  | Some m =>
      match Serialize m with
      | None => say (LogSerializeErr m) s
      | Some b => set_send_pc (SWriting m b) s
      end
  end.

(** The rest of the loop body, once [conn.WriteMessage] has returned. *)
Definition onWritten (m : Message) (b : bytes) (ok : bool) (s : State)
  : State :=
  let s1 := call (WriteMessage payloadType b ok (Some m)) s in
  if ok then set_send_pc SIdle s1
  else send_exit ExWriteErr
         (if IsGoodbyeAck m then s1 else say (LogWriteErr m) s1).

Inductive Event :=
(* producers *)
| EvSend (m : option Message)        (* Send: w.wr <- msg *)
| EvTrySend (m : option Message)     (* TrySend: first select *)
| EvTryWake (i : nat)                (* TrySend: second select, w.wr <- msg *)
| EvTryTimeout (i : nat)             (* TrySend: second select, time.After *)
    (* sendTimeout is declared elsewhere in the package; the event is the
       expiry of that timer, whatever its length *)
(* Close *)
| EvCloseCall
| EvCloseEnq
| EvCloseWait
| EvCloseSignal
| EvCloseCtrl (ok : bool)
| EvCloseConn
(* sendHandler / sendHandlerKeepAlive *)
| EvSendStart
| EvSendDeq
| EvSendWrite (ok : bool)
| EvTick (ping_ok : bool)
(* recvHandler *)
| EvPong
| EvReadErr
| EvReadFrame (kind : Z) (b : bytes)
| EvRecvEnq
| EvRecvWait
| EvDeliver
| EvRecvClosed
| EvGraceTimeout.

Definition exec (e : Event) (s : State) : option State :=
  if panicked s then None else
  match e with
  | EvSend m =>
      if room s then Some (enqueue Producer m s) else None
  | EvTrySend m =>
      if room s then Some (ret (TryFast m) (enqueue Producer m s))
      else Some (set_trywait (trywait s ++ [m]) s)
  | EvTryWake i =>
      match trywait s !! i with
      | Some m =>
          if room s then
            Some (ret (TrySlow m)
                    (enqueue Producer m
                       (set_trywait (delete i (trywait s)) s)))
          else None
      | None => None
      end
  | EvTryTimeout i =>
      match trywait s !! i with
      | Some m =>
          Some (ret (TryBlocked m) (set_trywait (delete i (trywait s)) s))
      | None => None
      end
  | EvCloseCall =>
      match close_pc s with
      | CNotCalled => Some (set_close_pc CEnq s)
      | _ => None
      end
  | EvCloseEnq =>
      match close_pc s with
      | CEnq =>
          if room s then Some (set_close_pc CWait (enqueue Closer None s))
          else None
      | _ => None
      end
  | EvCloseWait =>
      match close_pc s with
      | CWait => if writerDone s then Some (set_close_pc CSignal s) else None
      | _ => None
      end
  | EvCloseSignal =>
      match close_pc s with
      | CSignal =>
          if closed s then Some (set_panicked true s)
          else Some (set_close_pc CCtrl (set_closed true s))
      | _ => None
      end
  | EvCloseCtrl ok =>
      match close_pc s with
      | CCtrl =>
          Some (set_close_pc CConn
                  (call (WriteControl CloseMessage closeMsg ok) s))
      | _ => None
      end
  | EvCloseConn =>
      match close_pc s with
      | CConn => Some (set_close_pc CDone (call (ConnClose Closer) s))
      | _ => None
      end
  | EvSendStart =>
      match send_pc s with
      | SStart keepAlive =>
          if keepAlive =? 0 then Some (set_send_pc SIdle s)
          else
            let s1 := set_pendingPongs 0 (set_pongHandler true s) in
            (* time.NewTicker panics on a non-positive interval; the
               deferred close(w.writerDone) runs while panicking *)
            if keepAlive <=? 0 then
              Some (set_panicked true (set_writerDone true s1))
            else Some (set_send_pc SIdle (set_ticker (Some keepAlive) s1))
      | _ => None
      end
  | EvSendDeq =>
      match send_pc s with
      | SIdle =>
          match wr s with
          | item :: rest =>
              Some (onItem item (set_deq (deq s ++ [item]) (set_wr rest s)))
          | [] =>
              if wr_closed s then Some (send_exit ExChanClosed s) else None
          end
      | _ => None
      end
  | EvSendWrite ok =>
      match send_pc s with
      | SWriting m b => Some (onWritten m b ok s)
      | _ => None
      end
  | EvTick ping_ok =>
      match send_pc s, ticker s with
      | SIdle, Some _ => Some (onTick ping_ok s)
      | _, _ => None
      end
  | EvPong =>
      match recv_pc s with
      | RRead =>
          if pongHandler s then Some (set_pendingPongs 0 s) else Some s
      | _ => None
      end
  | EvReadErr =>
      match recv_pc s with
      | RRead =>
          if closed s then Some (recv_exit s)
          else Some (set_recv_pc REnq s)
      | _ => None
      end
  | EvReadFrame kind b =>
      match recv_pc s with
      | RRead =>
          let s1 := set_reads (reads s ++ [(kind, b)]) s in
          if kind =? CloseMessage then Some (recv_exit s1)
          else
            match Deserialize b with
            | None => Some (say (LogDeserializeErr b) s1)
            | Some m => Some (set_recv_pc (RDeliver m) s1)
            end
      | _ => None
      end
  | EvRecvEnq =>
      match recv_pc s with
      | REnq =>
          if room s then Some (set_recv_pc RWait (enqueue InboundPump None s))
          else None
      | _ => None
      end
  | EvRecvWait =>
      match recv_pc s with
      | RWait => if writerDone s then Some (recv_exit s) else None
      | _ => None
      end
  | EvDeliver =>
      match recv_pc s with
      | RDeliver m =>
          Some (set_recv_pc RRead (set_delivered (delivered s ++ [m]) s))
      | RGrace m =>
          Some (recv_exit (set_delivered (delivered s ++ [m]) s))
      | _ => None
      end
  | EvRecvClosed =>
      match recv_pc s with
      | RDeliver m => if closed s then Some (set_recv_pc (RGrace m) s) else None
      | _ => None
      end
  | EvGraceTimeout =>
      match recv_pc s with
      | RGrace m => Some (recv_exit s)
      | _ => None
      end
  end.

Fixpoint run (evs : list Event) (s : State) : option State :=
  match evs with
  | [] => Some s
  | e :: evs' =>
      match exec e s with
      | Some s' => run evs' s'
      | None => None
      end
  end.

(** [NewWebsocketPeer]: the channels are made, the Inbound Pump and one
    of the two Outbound Pumps are spawned. *)
Definition NewWebsocketPeer (keepAlive : Duration) : State :=
  {| wr := []; wr_closed := false; closed := false; writerDone := false;
     rd_closed := false; pendingPongs := 0; pongHandler := false;
     ticker := None;
     send_pc := SStart keepAlive;
     recv_pc := RRead;
     close_pc := CNotCalled;
     trywait := []; panicked := false; conn := [];
     log := if negb (keepAlive =? 0) && (keepAlive <? Second)
            then [LogText "Warning: very short keepalive (< 1 second)"]
            else [];
     delivered := []; enq := []; deq := []; reads := []; returns := [] |}.

(** ** Observations on the history *)

Definition countb {A} (p : A -> bool) (l : list A) : nat :=
  length (List.filter p l).

Definition isTask (t t' : Task) : bool :=
  match t, t' with
  | Producer, Producer | Closer, Closer
  | InboundPump, InboundPump | OutboundPump, OutboundPump => true
  | _, _ => false
  end.

(** The close control frame of [Close]. *)
Definition isCloseFrame (op : ConnOp) : bool :=
  match op with
  | WriteControl kind _ _ => kind =? CloseMessage
  | _ => false
  end.

Definition isConnClose (t : Task) (op : ConnOp) : bool :=
  match op with
  | ConnClose t' => isTask t t'
  | _ => false
  end.

Definition isAnyConnClose (op : ConnOp) : bool :=
  match op with
  | ConnClose _ => true
  | _ => false
  end.

Definition closeFrameSent (s : State) : bool :=
  existsb isCloseFrame (conn s).

Definition sendExited (s : State) : Prop :=
  exists r, send_pc s = SExited r.

(** How many times [w.conn.Close] has been called. *)
Definition connCloses (s : State) : nat := countb isAnyConnClose (conn s).

(** An enqueue of nil on [wr] by task [t]. *)
Definition isSentinelBy (t : Task) (p : Task * option Message) : bool :=
  isTask t p.1 && negb (bool_decide (is_Some p.2)).

(** The data frames handed to [conn.WriteMessage], in order, each with
    the message it encodes and the result of the write. *)
Definition dataFrames (c : list ConnOp) : list (Message * bytes * bool) :=
  omap (fun op => match op with
                  | WriteMessage _ b ok (Some m) => Some (m, b, ok)
                  | _ => None
                  end) c.

(** What the codec makes of a list of messages: the ones that fail to
    encode are left out. *)
Definition encodeAll (ms : list Message) : list (Message * bytes) :=
  omap (fun m => match Serialize m with
                 | Some b => Some (m, b)
                 | None => None
                 end) ms.

(** What the codec makes of the frames read: a close frame carries no
    message, and the ones that fail to decode are left out. *)
Definition decodeAll (fs : list (Z * bytes)) : list Message :=
  omap (fun f => if f.1 =? CloseMessage then None else Deserialize f.2) fs.

Definition closePassedWait (pc : ClosePC) : bool :=
  match pc with
  | CSignal | CCtrl | CConn | CDone => true
  | _ => false
  end.

Definition closePassedSignal (pc : ClosePC) : bool :=
  match pc with
  | CCtrl | CConn | CDone => true
  | _ => false
  end.

Definition closePassedCtrl (pc : ClosePC) : bool :=
  match pc with
  | CConn | CDone => true
  | _ => false
  end.

Definition closePassedEnq (pc : ClosePC) : bool :=
  match pc with
  | CNotCalled | CEnq => false
  | _ => true
  end.

(** ** Invariants *)

(** *** Writer-Done and the Outbound Pump *)

Definition inv_writerDone (s : State) : Prop :=
  (writerDone s = true -> sendExited s \/ panicked s = true) /\
  (sendExited s -> writerDone s = true).

(** *** The order of the statements of Close, the two signals, and the
    counts of sentinels and of connection closes *)

Record inv_basic (s : State) : Prop := {
  ib_wait : closePassedWait (close_pc s) = true -> writerDone s = true;
  ib_closed : closed s = closePassedSignal (close_pc s);
  ib_ctrl : closeFrameSent s = closePassedCtrl (close_pc s);
  ib_wr_open : wr_closed s = false;
  ib_cap : (length (wr s) <= outQueueSize)%nat;
  ib_pongs : 0 <= pendingPongs s <= 2;
  ib_rd : rd_closed s = match recv_pc s with RDone => true | _ => false end;
  ib_close_conn :
    countb (isConnClose Closer) (conn s) =
    match close_pc s with CDone => 1%nat | _ => 0%nat end;
  ib_recv_conn :
    countb (isConnClose InboundPump) (conn s) =
    match recv_pc s with RDone => 1%nat | _ => 0%nat end;
  ib_send_conn :
    countb (isConnClose OutboundPump) (conn s) =
    match send_pc s with SExited ExPongTimeout => 1%nat | _ => 0%nat end;
  ib_prod_conn : countb (isConnClose Producer) (conn s) = 0%nat;
  ib_close_enq :
    countb (isSentinelBy Closer) (enq s) =
    if closePassedEnq (close_pc s) then 1%nat else 0%nat;
  ib_recv_enq :
    match recv_pc s with
    | RWait => countb (isSentinelBy InboundPump) (enq s) = 1%nat
    | RDone => (countb (isSentinelBy InboundPump) (enq s) <= 1)%nat
    | _ => countb (isSentinelBy InboundPump) (enq s) = 0%nat
    end;
  ib_send_enq : countb (isSentinelBy OutboundPump) (enq s) = 0%nat;
  ib_recv_done :
    recv_pc s = RDone ->
    countb (isSentinelBy InboundPump) (enq s) = 1%nat ->
    writerDone s = true
}.

(** *** The queue is first-in first-out *)

Definition inv_fifo (s : State) : Prop :=
  deq s ++ wr s = (enq s).*2.

(** *** What the Outbound Pump has written *)

(** The frame the pump holds while it is inside [conn.WriteMessage]. *)
Definition inflight (s : State) : list (Message * bytes) :=
  match send_pc s with
  | SWriting m b => [(m, b)]
  | _ => []
  end.

(** The nil that made the pump return, when that is how it returned. *)
Definition sentinelTail (s : State) : list (option Message) :=
  match send_pc s with
  | SExited ExSentinel => [None]
  | _ => []
  end.

(** The items taken from the queue are messages, closed by one nil when
    the pump returned on it; the data frames written, followed by the one
    in flight, are the encodings of these messages, in order. *)
Definition inv_frames (s : State) : Prop :=
  exists ms,
    deq s = (Some <$> ms) ++ sentinelTail s /\
    encodeAll ms = (dataFrames (conn s)).*1 ++ inflight s.

(** *** The results of the data writes *)

Definition allOk (fs : list (Message * bytes * bool)) : bool :=
  forallb snd fs.

(** Every data write succeeded, except the last one when the pump
    returned on a failed write. *)
Definition inv_writes (s : State) : Prop :=
  match send_pc s with
  | SExited ExWriteErr =>
      exists pre f,
        dataFrames (conn s) = pre ++ [f] /\ f.2 = false /\ allOk pre = true
  | _ => allOk (dataFrames (conn s)) = true
  end.

(** *** Nothing is written after the close frame *)

(** The data frames written after the first close control frame. *)
Fixpoint framesAfterClose (c : list ConnOp)
  : list (Message * bytes * bool) :=
  match c with
  | [] => []
  | op :: c' => if isCloseFrame op then dataFrames c' else framesAfterClose c'
  end.

Definition inv_order (s : State) : Prop :=
  framesAfterClose (conn s) = [].

(** *** What the Inbound Pump has delivered *)

(** The messages delivered on [rd], followed by the one the pump holds,
    are the decodings of the frames read, in order.  After the pump has
    returned the last decoded message may be missing: the grace period
    ran out. *)
Definition inv_recv (s : State) : Prop :=
  exists pend,
    delivered s ++ pend = decodeAll (reads s) /\
    match recv_pc s with
    | RDeliver m | RGrace m => pend = [m]
    | RDone => (length pend <= 1)%nat
    | _ => pend = []
    end.

(** *** The mode of the Outbound Pump *)

(** The ticker, the pong handler and the keepalive exits exist only in a
    peer made with a positive [keepAlive]. *)
Record inv_mode (keepAlive : Duration) (s : State) : Prop := {
  im_start : forall k, send_pc s = SStart k ->
             k = keepAlive /\ ticker s = None;
  im_ticker : forall i, ticker s = Some i -> i = keepAlive /\ 0 < keepAlive;
  im_timeout : send_pc s = SExited ExPongTimeout -> 0 < keepAlive;
  im_ping : send_pc s = SExited ExPingErr -> 0 < keepAlive;
  im_panic : panicked s = true -> keepAlive < 0
}.

(** *** A panic stops the peer before Close can pass its wait *)

Definition inv_panic (s : State) : Prop :=
  panicked s = true -> closePassedWait (close_pc s) = false.

(** *** All invariants together *)

Record Inv (keepAlive : Duration) (s : State) : Prop := {
  I_done : inv_writerDone s;
  I_basic : inv_basic s;
  I_fifo : inv_fifo s;
  I_frames : inv_frames s;
  I_writes : inv_writes s;
  I_order : inv_order s;
  I_recv : inv_recv s;
  I_mode : inv_mode keepAlive s;
  I_panic : inv_panic s
}.

(** ** The properties *)

(** *** Statements for C1: graceful drain *)

(** The items producers put on the queue before the sentinel of Close. *)
Fixpoint beforeClose (h : list (Task * option Message))
  : list (option Message) :=
  match h with
  | [] => []
  | (t, m) :: h' =>
      match t with
      | Closer => []
      | Producer => m :: beforeClose h'
      | _ => beforeClose h'
      end
  end.

(** The messages of the data frames whose write succeeded. *)
Definition writtenOk (s : State) : list Message :=
  omap (fun f : Message * bytes * bool => if f.2 then Some f.1.1 else None)
    (dataFrames (conn s)).

(** The claim as the specification words it: once the close frame is
    sent, everything enqueued before Close has been written. *)
Definition gracefulDrainAsStated : Prop :=
  forall keepAlive evs s,
    run evs (NewWebsocketPeer keepAlive) = Some s ->
    closeFrameSent s = true ->
    Some <$> writtenOk s = beforeClose (enq s).

(** *** Statements for C2: closing the connection *)

(** The claim as the specification words it: one call of [conn.Close] in
    a lifetime, and never a second one. *)
Definition closedOnceAsStated : Prop :=
  forall keepAlive evs s,
    run evs (NewWebsocketPeer keepAlive) = Some s ->
    (connCloses s <= 1)%nat /\
    (recv_pc s = RDone -> sendExited s -> connCloses s = 1%nat).

(** *** Statements for C7: the sentinel and the queue *)

(** An enqueue of nil made by the peer itself. *)
Definition isPeerSentinel (p : Task * option Message) : bool :=
  negb (isTask Producer p.1) && negb (bool_decide (is_Some p.2)).

Definition isNil (p : Task * option Message) : bool :=
  negb (bool_decide (is_Some p.2)).

(** *** Statements for C6: a codec failure does not end the session *)

(** The Inbound Pump reads the frames [fs] one after the other and the
    application takes every message as it is offered. *)
Definition recvSchedule (fs : list (Z * bytes)) : list Event :=
  flat_map (fun f : Z * bytes =>
              EvReadFrame f.1 f.2 ::
              match Deserialize f.2 with
              | Some _ => [EvDeliver]
              | None => []
              end) fs.

(** The log lines of the frames that fail to decode. *)
Definition decodeErrors (fs : list (Z * bytes)) : list LogLine :=
  omap (fun f : Z * bytes =>
          match Deserialize f.2 with
          | Some _ => None
          | None => Some (LogDeserializeErr f.2)
          end) fs.

Definition wellFormed (f : Z * bytes) : Prop :=
  f.1 <> CloseMessage /\ is_Some (Deserialize f.2).

(** *** Statements for C3: keepalive *)

Definition isTick (e : Event) : bool :=
  match e with
  | EvTick _ => true
  | _ => false
  end.

(** The remote answers no ping, and every ping is written. *)
Definition silentRemote (evs : list Event) : Prop :=
  Forall (fun e => e <> EvPong /\ e <> EvTick false) evs.

(** The ticks the pump has taken since the last pong: the counter, and
    one more once the pump has closed the connection on it. *)
Definition ticksSeen (s : State) : Z :=
  match send_pc s with
  | SExited ExPongTimeout => 3
  | _ => pendingPongs s
  end.

(** The force-closes that are still to come, added to the ones made. *)
Definition forceCloseBudget (s : State) : nat :=
  (countb (isConnClose OutboundPump) (conn s) +
   match send_pc s with
   | SExited ExPongTimeout => 0
   | _ => 1
   end)%nat.

Definition started (s : State) : Prop :=
  forall k, send_pc s <> SStart k.

(** The instant of the [n]-th tick of [time.NewTicker(I)], counted from
    the creation of the ticker, for a ticker that is never late. *)
Definition tickTime (I : Duration) (n : Z) : Z := n * I.

(** *** Statements for C9: a short keepalive interval *)

Definition shortKeepaliveWarning : LogLine :=
  LogText "Warning: very short keepalive (< 1 second)".

(** The claim as the specification words it, for every non-zero interval
    below one second. *)
Definition shortKeepaliveAsStated : Prop :=
  forall keepAlive,
    keepAlive <> 0 -> keepAlive < Second ->
    log (NewWebsocketPeer keepAlive) = [shortKeepaliveWarning] /\
    exists s,
      exec EvSendStart (NewWebsocketPeer keepAlive) = Some s /\
      panicked s = false /\ send_pc s = SIdle /\
      ticker s = Some keepAlive.

(** *** Statements for C5: a read failure in the Inbound Pump *)

(** The claim's last clause as the specification words it: after a read
    failure that is not the consequence of Close, the Inbound Pump can
    always still finish. *)
Definition noDeadlockAsStated : Prop :=
  forall keepAlive evs s,
    run evs (NewWebsocketPeer keepAlive) = Some s ->
    recv_pc s = REnq ->
    exists evs' s', run evs' s = Some s' /\ recv_pc s' = RDone.

(** The Inbound Pump is at its send of the sentinel, the queue is full
    and the Outbound Pump has returned. *)
Definition stuck (s : State) : Prop :=
  recv_pc s = REnq /\ room s = false /\ sendExited s.

(** The Outbound Pump has not entered its body and panics when it does:
    [time.NewTicker] is given a negative interval. *)
Definition pumpDoomed (s : State) : Prop :=
  exists k, send_pc s = SStart k /\ k < 0.

(** The Inbound Pump can run to its return. *)
Definition canFinish (s : State) : Prop :=
  exists evs' s',
    run evs' s = Some s' /\ recv_pc s' = RDone /\ rd_closed s' = true.

(** ** Further observations *)

(** The messages the Outbound Pump has taken from the queue. *)
Definition dequeuedMsgs (s : State) : list Message :=
  omap id (deq s).

(** The messages among [ms] that the codec rejects. *)
Definition rejected (ms : list Message) : list Message :=
  List.filter (fun m => negb (bool_decide (is_Some (Serialize m)))) ms.

(** The payloads among the frames [fs] that the codec rejects; a close
    frame is not given to the codec. *)
Definition undecodable (fs : list (Z * bytes)) : list bytes :=
  omap (fun f : Z * bytes =>
          if f.1 =? CloseMessage then None
          else match Deserialize f.2 with
               | Some _ => None
               | None => Some f.2
               end) fs.

Definition serializeErrs (l : list LogLine) : list Message :=
  omap (fun x => match x with LogSerializeErr m => Some m | _ => None end) l.

Definition writeErrs (l : list LogLine) : list Message :=
  omap (fun x => match x with LogWriteErr m => Some m | _ => None end) l.

Definition deserializeErrs (l : list LogLine) : list bytes :=
  omap (fun x => match x with LogDeserializeErr b => Some b | _ => None end)
    l.

Definition isPing (op : ConnOp) : bool :=
  match op with
  | WriteMessage _ _ _ None => true
  | _ => false
  end.

(** What a call on the connection must look like. *)
Definition wfOp (op : ConnOp) : Prop :=
  match op with
  | WriteMessage kind b _ (Some m) =>
      kind = payloadType /\ Serialize m = Some b
  | WriteMessage kind b _ None => kind = PingMessage /\ b = pingMsg
  | WriteControl kind b _ => kind = CloseMessage /\ b = closeMsg
  | ConnClose _ => True
  end.

(** No [conn.Close] of Close comes before the close frame. *)
Fixpoint frameBeforeClose (c : list ConnOp) : bool :=
  match c with
  | [] => true
  | op :: c' =>
      if isCloseFrame op then true
      else negb (isConnClose Closer op) && frameBeforeClose c'
  end.

(** ** Further invariants *)

(** The log accounts for every message and frame the codec rejected and
    for the one failed write. *)
Record inv_log (s : State) : Prop := {
  il_ser : serializeErrs (log s) = rejected (dequeuedMsgs s);
  il_deser : deserializeErrs (log s) = undecodable (reads s);
  il_write :
    match send_pc s with
    | SExited ExWriteErr =>
        exists pre m b,
          dataFrames (conn s) = pre ++ [(m, b, false)] /\
          writeErrs (log s) = if IsGoodbyeAck m then [] else [m]
    | _ => writeErrs (log s) = []
    end
}.

(** Every call on the connection is well formed, and so is the frame in
    flight. *)
Record inv_wf (s : State) : Prop := {
  iw_conn : Forall wfOp (conn s);
  iw_inflight : forall m b, send_pc s = SWriting m b -> Serialize m = Some b;
  iw_ctrl :
    countb isCloseFrame (conn s) =
    if closePassedCtrl (close_pc s) then 1%nat else 0%nat;
  iw_order : frameBeforeClose (conn s) = true
}.

(** A decoded message is given up only after the Explicit-Close Signal. *)
Definition inv_grace (s : State) : Prop :=
  exists pend,
    delivered s ++ pend = decodeAll (reads s) /\
    match recv_pc s with
    | RDeliver m => pend = [m]
    | RGrace m => pend = [m] /\ closed s = true
    | RDone => pend = [] \/ (length pend = 1%nat /\ closed s = true)
    | _ => pend = []
    end.

(** Pings, the ticker and the pong handler belong to a peer with a
    positive keepalive. *)
Record inv_ping (keepAlive : Duration) (s : State) : Prop := {
  ip_start : forall k, send_pc s = SStart k -> k = keepAlive;
  ip_none :
    keepAlive <= 0 -> ticker s = None /\ countb isPing (conn s) = 0%nat;
  ip_plain : keepAlive = 0 -> pongHandler s = false /\ panicked s = false
}.

Record Inv2 (keepAlive : Duration) (s : State) : Prop := {
  J_log : inv_log s;
  J_wf : inv_wf s;
  J_grace : inv_grace s;
  J_ping : inv_ping keepAlive s
}.

(** The Outbound Pump has returned and the queue is full. *)
Definition jammed (s : State) : Prop :=
  room s = false /\ sendExited s.

(** The Outbound Pump is between its start and its return. *)
Definition pumpRunning (s : State) : Prop :=
  send_pc s = SIdle \/ exists m b, send_pc s = SWriting m b.

(** Starting with at most [c] pings unanswered, no tick of the schedule
    comes when two pings are unanswered. *)
Fixpoint answered (c : Z) (evs : list Event) : bool :=
  match evs with
  | [] => true
  | EvPong :: evs' => answered 0 evs'
  | EvTick _ :: evs' => (c <? 2) && answered (c + 1) evs'
  | _ :: evs' => answered c evs'
  end.

Definition isSendEv (e : Event) : bool :=
  match e with
  | EvSend _ => true
  | _ => false
  end.

Definition isTrySendEv (e : Event) : bool :=
  match e with
  | EvTrySend _ => true
  | _ => false
  end.

(** A TrySend call that returned nil. *)
Definition isTryOk (r : TryRet) : bool :=
  match r with
  | TryFast _ | TrySlow _ => true
  | TryBlocked _ => false
  end.

Definition byProducer (p : Task * option Message) : bool :=
  isTask Producer p.1.

(** At most [c] pings are unanswered and the pump has not returned on
    the pong timeout. *)
Definition answering (c : Z) (s : State) : Prop :=
  0 <= c /\ send_pc s <> SExited ExPongTimeout /\
  (ticker s <> None -> pongHandler s = true /\ 0 <= pendingPongs s <= c).

(** Every message written is a text or a binary frame. *)
Definition textOrBinary (op : ConnOp) : Prop :=
  match op with
  | WriteMessage kind _ _ _ => kind = TextMessage \/ kind = BinaryMessage
  | _ => True
  end.

End Peer.

(** ** Connecting *)

Section Connect.

(** The types of the packages [tls], [http], [url], [net] and
    [websocket] that [ConnectWebsocketPeerContext] only passes on. *)
Context {TLSConfig CookieJar URL NetConn Conn Ctx : Type}.

(** [url.Parse]; an error is [None]. *)
Variable url_Parse : string -> option URL.

Definition DialFunc : Type := string -> string -> option NetConn.

Inductive Serialization :=
| JSON
| MSGPACK
| CBOR
| OtherSerialization (n : Z).

Inductive Serializer :=
| JSONSerializer
| MessagePackSerializer
| CBORSerializer.

Inductive ProxyFunc :=
| ProxyFromEnvironment
| http_ProxyURL (u : URL).

Record WebsocketConfig := {
  EnableCompression : bool;
  Jar : option CookieJar;
  ProxyURL : string;
  EnableTrackingCookie : bool;
  EnableRequestCapture : bool
}.

(** The fields of [websocket.Dialer] the function sets; the others keep
    their zero values. *)
Record Dialer := {
  Subprotocols : list string;
  TLSClientConfig : option TLSConfig;
  Proxy : ProxyFunc;
  NetDial : option DialFunc;
  Dialer_Jar : option CookieJar;
  Dialer_EnableCompression : bool
}.

Inductive ConnectError :=
| ErrUnsupportedSerialization (s : Serialization)
| ErrParseProxyURL
| ErrDial.

(** Which of the two methods of the dialer is called. *)
Inductive DialCall := CallDialContext | CallDial.

(** The dialer's handshake; an error is [None]. *)
Variable Dial : Dialer -> DialCall -> string -> option Conn.

(** The arguments [ConnectWebsocketPeerContext] gives to
    [NewWebsocketPeer]. *)
Record PeerArgs := {
  peer_conn : Conn;
  peer_serializer : Serializer;
  peer_payloadType : Z;
  peer_keepAlive : Duration
}.

(** The [switch serialization]. *)
Definition protocolFor (serialization : Serialization)
  : option (string * Z * Serializer) :=
  match serialization with
  | JSON => Some (jsonWebsocketProtocol, TextMessage, JSONSerializer)
  | MSGPACK =>
      Some (msgpackWebsocketProtocol, BinaryMessage, MessagePackSerializer)
  | CBOR => Some (cborWebsocketProtocol, BinaryMessage, CBORSerializer)
  | OtherSerialization _ => None
  end.

(** The dialer as it is when the function dials. *)
Definition makeDialer (protocol : string) (tlsConfig : option TLSConfig)
    (dial : option DialFunc) (wsCfg : option WebsocketConfig)
  : ConnectError + Dialer :=
  let dialer :=
    {| Subprotocols := [protocol];
       TLSClientConfig := tlsConfig;
       Proxy := ProxyFromEnvironment;
       NetDial := dial;
       Dialer_Jar := None;
       Dialer_EnableCompression := false |} in
  match wsCfg with
  | None => inr dialer
  | Some cfg =>
      let withProxy :=
        if String.eqb (ProxyURL cfg) "" then inr (Proxy dialer)
        else match url_Parse (ProxyURL cfg) with
             | None => inl ErrParseProxyURL
             | Some proxyURL => inr (http_ProxyURL proxyURL)
             end in
      match withProxy with
      | inl err => inl err
      | inr proxy =>
          inr {| Subprotocols := Subprotocols dialer;
                 TLSClientConfig := TLSClientConfig dialer;
                 Proxy := proxy;
                 NetDial := NetDial dialer;
                 Dialer_Jar := Jar cfg;
                 Dialer_EnableCompression := true |}
      end
  end.

Definition ConnectWebsocketPeerContext (ctx : option Ctx)
    (routerURL : string) (serialization : Serialization)
    (tlsConfig : option TLSConfig) (dial : option DialFunc)
    (wsCfg : option WebsocketConfig)
  : ConnectError + PeerArgs :=
  match protocolFor serialization with
  | None => inl (ErrUnsupportedSerialization serialization)
  | Some (protocol, payloadType, serializer) =>
      match makeDialer protocol tlsConfig dial wsCfg with
      | inl err => inl err
      | inr dialer =>
          let how :=
            match ctx with
            | None => CallDialContext
            | Some _ => CallDial
            end in
          match Dial dialer how routerURL with
          | None => inl ErrDial
          | Some conn =>
              inr {| peer_conn := conn;
                     peer_serializer := serializer;
                     peer_payloadType := payloadType;
                     peer_keepAlive := 0 |}
          end
      end
  end.

Definition ConnectWebsocketPeer (routerURL : string)
    (serialization : Serialization) (tlsConfig : option TLSConfig)
    (dial : option DialFunc) (wsCfg : option WebsocketConfig)
  : ConnectError + PeerArgs :=
  ConnectWebsocketPeerContext None routerURL serialization tlsConfig dial
    wsCfg.

End Connect.

(** ** A small codec for the examples *)

Module Toy.

(** Messages are single bytes.  The zero byte has no encoding, and no
    frame decodes to it; a frame is the message byte itself. *)
Definition Message : Type := Byte.byte.

Definition Serialize (m : Message) : option bytes :=
  match m with
  | Byte.x00 => None
  | _ => Some [m]
  end.

Definition Deserialize (b : bytes) : option Message :=
  match b with
  | [Byte.x00] => None
  | [m] => Some m
  | _ => None
  end.

Definition IsGoodbyeAck (m : Message) : bool :=
  match m with
  | Byte.xff => true
  | _ => false
  end.

Abbreviation run := (run Serialize Deserialize IsGoodbyeAck TextMessage).
Abbreviation exec := (exec Serialize Deserialize IsGoodbyeAck TextMessage).
Abbreviation new := (NewWebsocketPeer (Message := Message)).

(** Two messages are sent and Close runs to its close frame. *)
Definition drainSchedule : list (Event (Message := Message)) :=
  [EvSendStart; EvSend (Some Byte.x01); EvSend (Some Byte.x02);
   EvCloseCall; EvCloseEnq;
   EvSendDeq; EvSendWrite true; EvSendDeq; EvSendWrite true; EvSendDeq;
   EvCloseWait; EvCloseSignal; EvCloseCtrl true].

(** A message that does not encode is sent and Close runs to its end. *)
Definition dropSchedule : list (Event (Message := Message)) :=
  [EvSendStart; EvSend (Some Byte.x00); EvSendDeq;
   EvCloseCall; EvCloseEnq; EvSendDeq;
   EvCloseWait; EvCloseSignal; EvCloseCtrl true; EvCloseConn].

(** The state a schedule leaves a new peer in (the new peer itself when
    the schedule cannot run). *)
Definition final (keepAlive : Duration) (evs : list Event) : State :=
  from_option id (new keepAlive) (run evs (new keepAlive)).

Definition drainFinal : State := Eval vm_compute in final 0 drainSchedule.
Definition dropFinal : State := Eval vm_compute in final 0 dropSchedule.

(** Close runs to its end, and the Inbound Pump then sees its read fail. *)
Definition closeTwiceSchedule : list (Event (Message := Message)) :=
  [EvSendStart; EvCloseCall; EvCloseEnq; EvSendDeq;
   EvCloseWait; EvCloseSignal; EvCloseCtrl true; EvCloseConn; EvReadErr].

Definition closeTwiceFinal : State :=
  Eval vm_compute in final 0 closeTwiceSchedule.

(** The remote disconnects while a message is queued, and Close is called
    while the Inbound Pump waits for Writer-Done. *)
Definition bothSentinelsSchedule : list (Event (Message := Message)) :=
  [EvSendStart; EvSend (Some Byte.x01); EvReadErr; EvRecvEnq;
   EvCloseCall; EvCloseEnq; EvSendDeq; EvSendWrite true; EvSendDeq;
   EvRecvWait; EvCloseWait; EvCloseSignal; EvCloseCtrl false; EvCloseConn].

Definition bothSentinelsFinal : State :=
  Eval vm_compute in final 0 bothSentinelsSchedule.

(** A peer with a keepalive of 5ns, just after the pong to its first
    ping; then three ticks with no pong, a message sent in between. *)
Definition pongedState : State :=
  Eval vm_compute in final 5 [EvSendStart; EvTick true; EvPong].

Definition silentSchedule : list (Event (Message := Message)) :=
  [EvTick true; EvSend (Some Byte.x01); EvTick true; EvTick true].

Definition silentFinal : State :=
  Eval vm_compute in from_option id pongedState (run silentSchedule pongedState).

(** A write fails and the Outbound Pump returns; producers fill the
    queue; then the read of the Inbound Pump fails. *)
Definition deadlockSchedule : list (Event (Message := Message)) :=
  [EvSendStart; EvSend (Some Byte.x01); EvSendDeq; EvSendWrite false]
    ++ (EvSend <$> replicate outQueueSize (Some Byte.x02))
    ++ [EvReadErr].

Definition deadlockFinal : State :=
  Eval vm_compute in final 0 deadlockSchedule.

(** The remote disconnects while a message is queued. *)
Definition disconnectSchedule : list (Event (Message := Message)) :=
  [EvSendStart; EvSend (Some Byte.x01); EvReadErr].

Definition disconnectFinal : State :=
  Eval vm_compute in final 0 disconnectSchedule.

Definition startedState : State :=
  Eval vm_compute in final 0 [EvSendStart].

(** A producer passes nil to Send on a new peer. *)
Definition nilSentFinal : State :=
  Eval vm_compute in final 0 [EvSendStart; EvSend None].

(** Three frames are read, the second corrupted; Close is called while
    the third message waits to be delivered, and the grace period runs
    out. *)
Definition graceSchedule : list (Event (Message := Message)) :=
  [EvSendStart; EvReadFrame TextMessage [Byte.x01]; EvDeliver;
   EvReadFrame TextMessage [Byte.x00]; EvReadFrame TextMessage [Byte.x02];
   EvCloseCall; EvCloseEnq; EvSendDeq; EvCloseWait; EvCloseSignal;
   EvRecvClosed; EvGraceTimeout].

Definition graceFinal : State := Eval vm_compute in final 0 graceSchedule.

(** A keepalive peer with two pings unanswered. *)
Definition twoPingsSchedule : list (Event (Message := Message)) :=
  [EvSendStart; EvTick true; EvPong; EvTick true; EvSend (Some Byte.x01);
   EvTick true].

Definition twoPingsFinal : State :=
  Eval vm_compute in final 5 twoPingsSchedule.

(** A keepalive peer whose remote answers every second ping at least. *)
Definition answeredSchedule : list (Event (Message := Message)) :=
  [EvSendStart; EvTick true; EvPong; EvTick true; EvTick true; EvPong;
   EvTick true].

Definition answeredFinal : State :=
  Eval vm_compute in final 5 answeredSchedule.

(** A keepalive peer whose remote never answers. *)
Definition timeoutSchedule : list (Event (Message := Message)) :=
  [EvSendStart; EvTick true; EvTick true; EvTick true].

Definition timeoutFinal : State :=
  Eval vm_compute in final 5 timeoutSchedule.

(** One Send and seventeen calls of TrySend on a peer whose pump takes
    nothing; the two calls that wait run into their timer. *)
Definition trySchedule : list (Event (Message := Message)) :=
  [EvSend (Some Byte.x01)]
    ++ (EvTrySend <$> replicate 17 (Some Byte.x02))
    ++ [EvTryTimeout 1; EvTryTimeout 0].

Definition tryFinal : State := Eval vm_compute in final 0 trySchedule.

(** After the pump has returned, a message is sent. *)
Definition lateSendFinal : State :=
  Eval vm_compute in
    from_option id dropFinal (run [EvSend (Some Byte.x01)] dropFinal).

(** On the jammed peer a TrySend waits and gives up. *)
Definition jammedSchedule : list (Event (Message := Message)) :=
  [EvTrySend (Some Byte.x03); EvCloseCall; EvTryTimeout 0].

Definition jammedFinal : State :=
  Eval vm_compute in
    from_option id deadlockFinal (run jammedSchedule deadlockFinal).

(** A write fails and the Outbound Pump returns; one more message is
    sent, and then the read of the Inbound Pump fails. *)
Definition lateDisconnectSchedule : list (Event (Message := Message)) :=
  [EvSendStart; EvSend (Some Byte.x01); EvSendDeq; EvSendWrite false;
   EvSend (Some Byte.x02); EvReadErr].

Definition lateDisconnectFinal : State :=
  Eval vm_compute in final 0 lateDisconnectSchedule.

End Toy.

(** ** Facts about the peer *)

Section PeerFacts.

Context {Message : Type}.
Variable Serialize : Message -> option bytes.
Variable Deserialize : bytes -> option Message.
Variable IsGoodbyeAck : Message -> bool.
Variable payloadType : Z.

Local Abbreviation exec :=
  (exec Serialize Deserialize IsGoodbyeAck payloadType).
Local Abbreviation run :=
  (run Serialize Deserialize IsGoodbyeAck payloadType).
Local Abbreviation onItem := (onItem Serialize).
Local Abbreviation onWritten := (onWritten IsGoodbyeAck payloadType).
Local Abbreviation encodeAll := (encodeAll Serialize).
Local Abbreviation decodeAll := (decodeAll Deserialize).
Local Abbreviation decodeErrors := (decodeErrors Deserialize).
Local Abbreviation recvSchedule := (recvSchedule Deserialize).
Local Abbreviation wellFormed := (wellFormed Deserialize).
Local Abbreviation inv_frames := (inv_frames Serialize).
Local Abbreviation inv_recv := (inv_recv Deserialize).
Local Abbreviation Inv := (Inv Serialize Deserialize).
Local Abbreviation I_done := (I_done Serialize Deserialize).
Local Abbreviation I_basic := (I_basic Serialize Deserialize).
Local Abbreviation I_fifo := (I_fifo Serialize Deserialize).
Local Abbreviation I_frames := (I_frames Serialize Deserialize).
Local Abbreviation I_writes := (I_writes Serialize Deserialize).
Local Abbreviation I_order := (I_order Serialize Deserialize).
Local Abbreviation I_recv := (I_recv Serialize Deserialize).
Local Abbreviation I_mode := (I_mode Serialize Deserialize).
Local Abbreviation I_panic := (I_panic Serialize Deserialize).
Local Abbreviation NewWebsocketPeer :=
  (NewWebsocketPeer (Message := Message)).
Local Abbreviation dataFrames := (dataFrames (Message := Message)).
Local Abbreviation framesAfterClose := (framesAfterClose (Message := Message)).
Local Abbreviation State := (State (Message := Message)).
Local Abbreviation ConnOp := (ConnOp (Message := Message)).
Local Abbreviation Event := (Event (Message := Message)).
Local Abbreviation LogLine := (LogLine (Message := Message)).
Local Abbreviation TryRet := (TryRet (Message := Message)).
Local Abbreviation beforeClose := (beforeClose (Message := Message)).
Local Abbreviation isPeerSentinel := (isPeerSentinel (Message := Message)).
Local Abbreviation isNil := (isNil (Message := Message)).
Local Abbreviation isSentinelBy := (isSentinelBy (Message := Message)).
Local Abbreviation canFinish :=
  (canFinish Serialize Deserialize IsGoodbyeAck payloadType).

Local Abbreviation rejected := (rejected Serialize).
Local Abbreviation undecodable := (undecodable Deserialize).
Local Abbreviation wfOp := (wfOp Serialize payloadType).
Local Abbreviation inv_log := (inv_log Serialize Deserialize IsGoodbyeAck).
Local Abbreviation inv_wf := (inv_wf Serialize payloadType).
Local Abbreviation inv_grace := (inv_grace Deserialize).
Local Abbreviation Inv2 :=
  (Inv2 Serialize Deserialize IsGoodbyeAck payloadType).
Local Abbreviation J_log :=
  (J_log Serialize Deserialize IsGoodbyeAck payloadType).
Local Abbreviation J_wf :=
  (J_wf Serialize Deserialize IsGoodbyeAck payloadType).
Local Abbreviation J_grace :=
  (J_grace Serialize Deserialize IsGoodbyeAck payloadType).
Local Abbreviation J_ping :=
  (J_ping Serialize Deserialize IsGoodbyeAck payloadType).
Local Abbreviation il_ser := (il_ser Serialize Deserialize IsGoodbyeAck).
Local Abbreviation il_deser := (il_deser Serialize Deserialize IsGoodbyeAck).
Local Abbreviation il_write := (il_write Serialize Deserialize IsGoodbyeAck).
Local Abbreviation iw_conn := (iw_conn Serialize payloadType).
Local Abbreviation iw_inflight := (iw_inflight Serialize payloadType).
Local Abbreviation iw_ctrl := (iw_ctrl Serialize payloadType).
Local Abbreviation iw_order := (iw_order Serialize payloadType).
Local Abbreviation serializeErrs := (serializeErrs (Message := Message)).
Local Abbreviation writeErrs := (writeErrs (Message := Message)).
Local Abbreviation deserializeErrs := (deserializeErrs (Message := Message)).
Local Abbreviation isPing := (isPing (Message := Message)).
Local Abbreviation frameBeforeClose := (frameBeforeClose (Message := Message)).

Local Abbreviation byProducer := (byProducer (Message := Message)).
Local Abbreviation isTryOk := (isTryOk (Message := Message)).
Local Abbreviation isSendEv := (isSendEv (Message := Message)).
Local Abbreviation isTrySendEv := (isTrySendEv (Message := Message)).

(** ** Proof infrastructure *)

(** Unfold the state updates of a step once the state is a record of
    variables; every projection then reduces to a variable. *)
Ltac peer_simpl :=
  cbv [enqueue send_exit recv_exit say call ret onTick onItem onWritten
       room closeFrameSent connCloses set_wr set_closed set_writerDone set_rd_closed set_pendingPongs
       set_pongHandler set_ticker set_send_pc set_recv_pc set_close_pc
       set_trywait set_panicked set_conn set_log set_delivered set_enq
       set_deq set_reads set_returns
       wr wr_closed closed writerDone rd_closed pendingPongs pongHandler
       ticker send_pc recv_pc close_pc trywait panicked conn log delivered
       enq deq reads returns] in *.

(** Case analysis on one step [exec e s = Some s']: one goal per enabled
    branch of [exec], with [s'] replaced by the updated record. *)
Ltac exec_inv H :=
  match type of H with exec _ ?s = _ => destruct s end;
  unfold exec in H; peer_simpl;
  repeat match type of H with
         | None = Some _ => discriminate H
         | context [match ?x with _ => _ end] =>
             lazymatch x with
             | context [match _ with _ => _ end] => fail
             | _ => destruct x eqn:?; cbv beta iota in H
             end
         end;
  match type of H with Some _ = Some ?s' => injection H as <- end;
  peer_simpl.

Lemma run_app evs1 evs2 s :
  run (evs1 ++ evs2) s = run evs1 s ≫= run evs2.
Proof.
  revert s. induction evs1 as [|e evs1 IH]; intros s; simpl; [done|].
  destruct (exec e s); simpl; auto.
Qed.

Lemma run_snoc evs e s s' :
  run (evs ++ [e]) s = Some s' <->
  exists s1, run evs s = Some s1 /\ exec e s1 = Some s'.
Proof.
  rewrite run_app. split.
  - destruct (run evs s) as [s1|]; simpl; [|done].
    destruct (exec e s1) eqn:E; [|done]. intros; simplify_eq. eauto.
  - intros (s1 & -> & E). simpl. by rewrite E.
Qed.

Lemma run_cons e evs s s1 :
  exec e s = Some s1 -> run (e :: evs) s = run evs s1.
Proof. intros E. simpl. by rewrite E. Qed.

(** A property kept by every step holds along every schedule. *)
Lemma run_invariant (P : State -> Prop) :
  (forall e s s', P s -> exec e s = Some s' -> P s') ->
  forall evs s s', P s -> run evs s = Some s' -> P s'.
Proof.
  intros Hstep evs. induction evs as [|e evs IH]; intros s s' HP Hr.
  - simpl in Hr. by simplify_eq.
  - simpl in Hr. destruct (exec e s) as [s1|] eqn:E; [|done].
    eapply IH; [|exact Hr]. eapply Hstep; eauto.
Qed.

(** *** Writer-Done and the Outbound Pump *)

Lemma inv_writerDone_step e s s' :
  inv_writerDone s -> exec e s = Some s' -> inv_writerDone s'.
Proof.
  unfold inv_writerDone, sendExited. intros [H1 H2] E.
  exec_inv E; (split; [intros Hw | intros [r Hr]]);
    try discriminate; eauto;
    try (destruct (H1 Hw) as [[r' Hr']|]; congruence);
    try (apply H2; eauto; fail).
Qed.

(** *** Counting lemmas *)

Lemma countb_app {A} (p : A -> bool) l1 l2 :
  countb p (l1 ++ l2) = (countb p l1 + countb p l2)%nat.
Proof. unfold countb. by rewrite List.filter_app, length_app. Qed.

Lemma countb_nil {A} (p : A -> bool) : countb p [] = 0%nat.
Proof. done. Qed.

Lemma countb_one {A} (p : A -> bool) x :
  countb p [x] = if p x then 1%nat else 0%nat.
Proof. unfold countb. simpl. by destruct (p x). Qed.

Lemma wrap32_small z : - 2 ^ 31 <= z < 2 ^ 31 -> wrap32 z = z.
Proof.
  intros H. unfold wrap32. rewrite Z.mod_small; lia.
Qed.

(** *** The order of the statements of Close, the two signals, and the
    counts of sentinels and of connection closes *)

Ltac count_simpl :=
  rewrite ?countb_app, ?countb_one, ?existsb_app, ?length_app in *;
  simpl in *;
  rewrite ?orb_false_r, ?orb_true_r, ?Nat.add_0_r in *.

Lemma inv_basic_init keepAlive : inv_basic (NewWebsocketPeer keepAlive).
Proof.
  split; simpl; try done; lia.
Qed.

Lemma inv_basic_step e s s' :
  inv_basic s -> exec e s = Some s' -> inv_basic s'.
Proof.
  intros [] E. exec_inv E.
  all: split; peer_simpl; count_simpl; try done; try lia.
  all: try (apply Nat.ltb_lt in Heqb0; lia).
  all: try congruence.
  rewrite wrap32_small; lia.
Qed.

(** *** The queue is first-in first-out *)

Lemma inv_fifo_step e s s' :
  inv_fifo s -> exec e s = Some s' -> inv_fifo s'.
Proof.
  unfold inv_fifo. intros H E. exec_inv E; try done.
  all: rewrite ?fmap_app; simpl; rewrite ?app_assoc; try congruence.
  all: rewrite <- H, <- ?app_assoc; done.
Qed.

(** *** What the Outbound Pump has written *)

Lemma dataFrames_app c1 c2 :
  dataFrames (c1 ++ c2) = dataFrames c1 ++ dataFrames c2.
Proof. apply omap_app. Qed.

Lemma encodeAll_app ms1 ms2 :
  encodeAll (ms1 ++ ms2) = encodeAll ms1 ++ encodeAll ms2.
Proof. apply omap_app. Qed.

Lemma encodeAll_one m :
  encodeAll [m] =
  match Serialize m with Some b => [(m, b)] | None => [] end.
Proof. unfold encodeAll. simpl. by destruct (Serialize m). Qed.

Lemma inv_frames_step e s s' :
  inv_frames s -> exec e s = Some s' -> inv_frames s'.
Proof.
  unfold inv_frames, inflight, sentinelTail. intros (ms & Hd & Hf) E.
  exec_inv E.
  all: rewrite ?dataFrames_app, ?fmap_app, ?app_nil_r in *; simpl in *;
    rewrite ?app_nil_r in *.
  all: try (exists ms; rewrite ?app_nil_r; subst; split; congruence).
  all: match goal with
       | Hs : Serialize ?m = _ |- _ =>
           exists (ms ++ [m]);
           rewrite fmap_app, encodeAll_app, encodeAll_one, Hs, ?app_nil_r;
           simpl; subst; split; congruence
       end.
Qed.

(** *** The results of the data writes *)

Lemma inv_writes_step e s s' :
  inv_writes s -> exec e s = Some s' -> inv_writes s'.
Proof.
  unfold inv_writes, allOk. intros H E. exec_inv E.
  all: rewrite ?dataFrames_app, ?forallb_app, ?app_nil_r in *; simpl in *;
    rewrite ?app_nil_r, ?andb_true_r in *; try done.
  all: try (destruct r as [| | | |]; done).
  all: eexists _, (_, _, false); eauto.
Qed.

(** *** Nothing is written after the close frame *)

Lemma framesAfterClose_snoc c op :
  framesAfterClose (c ++ [op]) =
  if existsb isCloseFrame c then framesAfterClose c ++ dataFrames [op]
  else [].
Proof.
  induction c as [|x c IH]; simpl.
  - by destruct (isCloseFrame op).
  - destruct (isCloseFrame x); simpl; [apply dataFrames_app | apply IH].
Qed.

Lemma framesAfterClose_split c pre op post :
  framesAfterClose c = [] ->
  c = pre ++ op :: post -> isCloseFrame op = true ->
  dataFrames post = [].
Proof.
  revert c. induction pre as [|x pre IH]; intros c Hc -> Hop; simpl in Hc.
  - by rewrite Hop in Hc.
  - destruct (isCloseFrame x).
    + rewrite dataFrames_app in Hc. apply app_eq_nil in Hc as [_ Hc].
      by destruct op.
    + by eapply IH.
Qed.

(** Once the close frame is on the connection the pump has returned. *)
Lemma closeFrame_sendExited (s : State) :
  inv_writerDone s -> inv_basic s ->
  closeFrameSent s = true -> sendExited s \/ panicked s = true.
Proof.
  intros [Hw _] Hb Hc. apply Hw, (ib_wait _ Hb).
  rewrite (ib_ctrl _ Hb) in Hc. by destruct (close_pc s).
Qed.

Lemma inv_order_step e s s' :
  inv_writerDone s -> inv_basic s ->
  inv_order s -> exec e s = Some s' -> inv_order s'.
Proof.
  intros Hw Hb H E. pose proof (closeFrame_sendExited s Hw Hb) as Hx.
  clear Hw Hb. unfold inv_order, sendExited in *. exec_inv E; try done.
  all: rewrite framesAfterClose_snoc, H; simpl; try by case_match.
  all: destruct (existsb isCloseFrame conn0); [|done].
  all: by destruct Hx as [[? ?]|].
Qed.

(** *** What the Inbound Pump has delivered *)

Lemma decodeAll_snoc fs kind b :
  decodeAll (fs ++ [(kind, b)]) =
  decodeAll fs ++
  (if kind =? CloseMessage then []
   else match Deserialize b with Some m => [m] | None => [] end).
Proof.
  unfold decodeAll. rewrite omap_app. simpl.
  destruct (kind =? CloseMessage); [done|]. by destruct (Deserialize b).
Qed.

Lemma inv_recv_step e s s' :
  inv_recv s -> exec e s = Some s' -> inv_recv s'.
Proof.
  unfold inv_recv. intros (pend & Hd & Hp) E. exec_inv E.
  all: rewrite ?decodeAll_snoc; subst.
  all: rewrite ?app_nil_r in *.
  all: try (exists pend; split; [done|]; by simpl).
  all: try match goal with
           | H : (_ =? CloseMessage) = _ |- _ => rewrite H
           end.
  all: try match goal with
           | H : Deserialize _ = _ |- _ => rewrite H
           end.
  all: rewrite <- ?Hd, ?app_nil_r.
  all: try (eexists []; rewrite ?app_nil_r; split; (done || simpl; lia)).
  all: try (eexists [_]; rewrite <- ?app_assoc; split; (done || simpl; lia)).
  all: try (exists pend; split; [done|]; simpl; lia).
Qed.

(** *** The mode of the Outbound Pump *)

Lemma inv_mode_init keepAlive :
  inv_mode keepAlive (NewWebsocketPeer keepAlive).
Proof. split; simpl; intros; by simplify_eq. Qed.

Lemma inv_mode_step keepAlive e s s' :
  inv_basic s ->
  inv_mode keepAlive s -> exec e s = Some s' -> inv_mode keepAlive s'.
Proof.
  intros Hb [] E. pose proof (ib_wr_open _ Hb) as Ho.
  pose proof (ib_closed _ Hb) as Hc. clear Hb. exec_inv E.
  all: split; peer_simpl; intros; simplify_eq; eauto.
  all: try (edestruct im_start0 as (? & ?); [done|]; simplify_eq; lia).
  all: try (edestruct im_ticker0 as (? & ?); [done|]; simplify_eq; lia).
Qed.

(** *** A panic stops the peer before Close can pass its wait *)

Lemma inv_panic_step e s s' :
  inv_writerDone s -> inv_basic s ->
  inv_panic s -> exec e s = Some s' -> inv_panic s'.
Proof.
  intros [Hw _] Hb H E. pose proof (ib_wait _ Hb) as Hc.
  pose proof (ib_wr_open _ Hb) as Ho. pose proof (ib_closed _ Hb) as Hs.
  clear Hb. unfold inv_panic, sendExited in *. exec_inv E; try done.
  intros _. destruct (closePassedWait close_pc0); [|done].
  destruct Hw as [[? ?]|]; by auto.
Qed.

(** *** All invariants together *)

Lemma Inv_init keepAlive : Inv keepAlive (NewWebsocketPeer keepAlive).
Proof.
  split.
  - split; [done|]. by intros [r Hr].
  - apply inv_basic_init.
  - done.
  - by exists [].
  - done.
  - done.
  - by exists [].
  - apply inv_mode_init.
  - done.
Qed.

Lemma Inv_step keepAlive e s s' :
  Inv keepAlive s -> exec e s = Some s' -> Inv keepAlive s'.
Proof.
  intros [] E. split;
    eauto using inv_writerDone_step, inv_basic_step, inv_fifo_step,
      inv_frames_step, inv_writes_step, inv_order_step, inv_recv_step,
      inv_mode_step, inv_panic_step.
Qed.

(** Every state a schedule reaches from a new peer satisfies the
    invariants. *)
Lemma Inv_reachable keepAlive evs s :
  run evs (NewWebsocketPeer keepAlive) = Some s -> Inv keepAlive s.
Proof.
  intros Hr. eapply (run_invariant (Inv keepAlive)); [|apply Inv_init|done].
  intros; by eapply Inv_step.
Qed.

(** In a reachable state with the close frame on the connection the
    Outbound Pump has returned. *)
Lemma Inv_closeFrame keepAlive s :
  Inv keepAlive s -> closeFrameSent s = true ->
  sendExited s /\ writerDone s = true /\ panicked s = false.
Proof.
  intros HI Hc. pose proof (I_basic _ _ HI) as Hb.
  assert (closePassedWait (close_pc s) = true) as Hp.
  { rewrite (ib_ctrl _ Hb) in Hc. by destruct (close_pc s). }
  assert (panicked s = false) as Hn.
  { destruct (panicked s) eqn:E; [|done].
    apply (I_panic _ _ HI) in E. congruence. }
  destruct (closeFrame_sendExited s (I_done _ _ HI) Hb Hc) as [Hx|Hx];
    [|congruence].
  split; [done|]. split; [|done]. by apply (I_done _ _ HI).
Qed.

(** What the pump took from the queue is a prefix of what was put in. *)
Lemma Inv_dequeued keepAlive s :
  Inv keepAlive s ->
  exists ms,
    encodeAll ms = (dataFrames (conn s)).*1 ++ inflight s /\
    ((Some <$> ms) ++ sentinelTail s) `prefix_of` (enq s).*2.
Proof.
  intros HI. destruct (I_frames _ _ HI) as (ms & Hd & Hf).
  exists ms. split; [done|]. exists (wr s).
  rewrite <- Hd. symmetry. apply (I_fifo _ _ HI).
Qed.

(** ** C1: graceful drain *)

(** C1 (amended).  Whenever the close control frame is on the
    connection, the sentinel of Close is in the queue history, the
    Outbound Pump has returned and Writer-Done is raised; no data frame
    follows the close frame; the data frames written are the
    encodings, in enqueue order, of the messages of a prefix of the queue
    history, those that fail to encode being left out; and when the pump
    returned on the sentinel, that prefix is everything enqueued before the
    first sentinel and every write succeeded. *)
Theorem graceful_drain keepAlive evs s :
  run evs (NewWebsocketPeer keepAlive) = Some s ->
  closeFrameSent s = true ->
  writerDone s = true /\ sendExited s /\
  countb (isSentinelBy Closer) (enq s) = 1%nat /\
  (forall pre op post,
      conn s = pre ++ op :: post -> isCloseFrame op = true ->
      dataFrames post = []) /\
  exists ms,
    (dataFrames (conn s)).*1 = encodeAll ms /\
    (Some <$> ms) `prefix_of` (enq s).*2 /\
    (send_pc s = SExited ExSentinel ->
     ((Some <$> ms) ++ [None]) `prefix_of` (enq s).*2 /\
     allOk (dataFrames (conn s)) = true).
Proof.
  intros Hr Hc. apply Inv_reachable in Hr as HI.
  destruct (Inv_closeFrame _ _ HI Hc) as ([r Hx] & Hw & _).
  split; [done|]. split; [by exists r|]. split.
  { pose proof (I_basic _ _ HI) as Hb. rewrite (ib_close_enq _ Hb).
    rewrite (ib_ctrl _ Hb) in Hc. by destruct (close_pc s). }
  split.
  { intros pre op post. apply framesAfterClose_split, (I_order _ _ HI). }
  destruct (Inv_dequeued _ _ HI) as (ms & Hf & Hp).
  unfold inflight, sentinelTail in *. rewrite Hx in *.
  rewrite app_nil_r in Hf. exists ms. split; [done|]. split.
  { destruct Hp as [k Hk]. exists (sentinelTail s ++ k).
    unfold sentinelTail. rewrite Hx, Hk. by rewrite <- app_assoc. }
  intros [= ->]. split; [done|].
  pose proof (I_writes _ _ HI) as Ho. unfold inv_writes in Ho.
  by rewrite Hx in Ho.
Qed.

(** ** C2: closing the connection *)

Lemma connCloses_by_task (c : list ConnOp) :
  countb isAnyConnClose c =
  (countb (isConnClose Producer) c + countb (isConnClose Closer) c +
   countb (isConnClose InboundPump) c +
   countb (isConnClose OutboundPump) c)%nat.
Proof.
  induction c as [|op c IH]; [done|].
  change (op :: c) with ([op] ++ c). rewrite !countb_app, IH, !countb_one.
  destruct op as [| |[]]; simpl; lia.
Qed.

(** C2 (amended).  Each of the three call sites of [conn.Close] (step 4
    of Close, the return of the Inbound Pump, the keepalive force-close)
    runs at most once, so the connection is closed at most three times,
    at most twice in a peer without keepalive, and at least once when
    Close or the Inbound Pump has finished; the close of Close and the
    close after the Inbound Pump's fallback come after Writer-Done. *)
Theorem conn_close_counts keepAlive evs s :
  run evs (NewWebsocketPeer keepAlive) = Some s ->
  (countb (isConnClose Closer) (conn s) <= 1)%nat /\
  (countb (isConnClose InboundPump) (conn s) <= 1)%nat /\
  (countb (isConnClose OutboundPump) (conn s) <= 1)%nat /\
  connCloses s =
    (countb (isConnClose Closer) (conn s) +
     countb (isConnClose InboundPump) (conn s) +
     countb (isConnClose OutboundPump) (conn s))%nat /\
  (keepAlive <= 0 -> (connCloses s <= 2)%nat) /\
  (recv_pc s = RDone \/ close_pc s = CDone -> (1 <= connCloses s)%nat) /\
  (countb (isConnClose Closer) (conn s) = 1%nat -> writerDone s = true) /\
  (recv_pc s = RDone ->
   countb (isSentinelBy InboundPump) (enq s) = 1%nat ->
   writerDone s = true).
Proof.
  intros Hr. apply Inv_reachable in Hr as HI.
  pose proof (I_basic _ _ HI) as Hb. pose proof (I_mode _ _ HI) as Hm.
  pose proof (ib_close_conn _ Hb) as H1.
  pose proof (ib_recv_conn _ Hb) as H2.
  pose proof (ib_send_conn _ Hb) as H3.
  pose proof (ib_prod_conn _ Hb) as H4.
  unfold connCloses. rewrite connCloses_by_task, H1, H2, H3, H4.
  repeat split.
  - destruct (close_pc s); lia.
  - destruct (recv_pc s); lia.
  - destruct (send_pc s) as [| | |[]]; lia.
  - intros Hk. destruct (send_pc s) as [| | |[]] eqn:E;
      try (destruct (close_pc s), (recv_pc s); lia).
    pose proof (im_timeout _ _ Hm E). lia.
  - intros [-> | ->]; [destruct (close_pc s)|destruct (recv_pc s)];
      destruct (send_pc s) as [| | |[]]; lia.
  - intros Hc. apply (ib_wait _ Hb). by destruct (close_pc s).
  - apply (ib_recv_done _ Hb).
Qed.

(** ** C7: the sentinel and the queue *)

Lemma peerSentinels_by_task (h : list (Task * option Message)) :
  countb isPeerSentinel h =
  (countb (isSentinelBy Closer) h + countb (isSentinelBy InboundPump) h +
   countb (isSentinelBy OutboundPump) h)%nat.
Proof.
  induction h as [|p h IH]; [done|].
  change (p :: h) with ([p] ++ h). rewrite !countb_app, IH, !countb_one.
  unfold isPeerSentinel, isSentinelBy.
  destruct p as [[] m]; simpl; destruct (bool_decide (is_Some m)); simpl; lia.
Qed.

Lemma nils_by_task (h : list (Task * option Message)) :
  countb isNil h =
  (countb (isSentinelBy Producer) h + countb isPeerSentinel h)%nat.
Proof.
  induction h as [|p h IH]; [done|].
  change (p :: h) with ([p] ++ h). rewrite !countb_app, IH, !countb_one.
  unfold isPeerSentinel, isSentinelBy, isNil.
  destruct p as [[] m]; simpl; destruct (bool_decide (is_Some m)); simpl; lia.
Qed.

(** C7.  The peer enqueues the sentinel at most twice, once from Close
    and once from the Inbound Pump, so a queue history in which the
    producers passed no nil holds at most two; the data frames written and
    the one in flight are the encodings of the messages taken from the
    queue, the sentinel adding none; and the queue is never closed. *)
Theorem sentinel_discipline keepAlive evs s :
  run evs (NewWebsocketPeer keepAlive) = Some s ->
  (countb (isSentinelBy Closer) (enq s) <= 1)%nat /\
  (countb (isSentinelBy InboundPump) (enq s) <= 1)%nat /\
  countb (isSentinelBy OutboundPump) (enq s) = 0%nat /\
  (countb isPeerSentinel (enq s) <= 2)%nat /\
  (countb (isSentinelBy Producer) (enq s) = 0%nat ->
   (countb isNil (enq s) <= 2)%nat) /\
  (exists ms,
      deq s = (Some <$> ms) ++ sentinelTail s /\
      (dataFrames (conn s)).*1 ++ inflight s = encodeAll ms) /\
  wr_closed s = false.
Proof.
  intros Hr. apply Inv_reachable in Hr as HI.
  pose proof (I_basic _ _ HI) as Hb.
  pose proof (ib_close_enq _ Hb) as H1.
  pose proof (ib_recv_enq _ Hb) as H2.
  pose proof (ib_send_enq _ Hb) as H3.
  assert (countb (isSentinelBy Closer) (enq s) <= 1)%nat as L1
    by (rewrite H1; destruct (closePassedEnq (close_pc s)); lia).
  assert (countb (isSentinelBy InboundPump) (enq s) <= 1)%nat as L2
    by (destruct (recv_pc s); simpl in H2; lia).
  assert (countb isPeerSentinel (enq s) <= 2)%nat as L3
    by (rewrite peerSentinels_by_task; lia).
  repeat split; try done.
  - intros Hp. rewrite nils_by_task. lia.
  - destruct (I_frames _ _ HI) as (ms & Hd & Hf). by exists ms.
  - apply (ib_wr_open _ Hb).
Qed.

(** ** C10: a nil message *)

(** C10.  A nil passed to Send or TrySend is put on the queue exactly as
    the sentinel of Close is; and whenever the pump, in either mode, takes
    a nil from the queue it returns and raises Writer-Done, writing and
    logging nothing and leaving the state of Close as it was. *)
Theorem nil_message_is_sentinel s q :
  panicked s = false -> wr_closed s = false ->
  send_pc s = SIdle -> wr s = None :: q ->
  (room s = true ->
   exists s1 s2,
     exec (EvSend None) s = Some s1 /\
     exec (EvTrySend None) s = Some s2 /\
     wr s1 = wr (enqueue Closer None s) /\
     wr s2 = wr (enqueue Closer None s) /\
     wr s1 = wr s ++ [None]) /\
  exists s',
    exec EvSendDeq s = Some s' /\
    send_pc s' = SExited ExSentinel /\ writerDone s' = true /\
    wr s' = q /\ deq s' = deq s ++ [None] /\
    conn s' = conn s /\ log s' = log s /\
    closed s' = closed s /\ close_pc s' = close_pc s /\
    recv_pc s' = recv_pc s.
Proof.
  intros Hp Ho Hs Hq. split.
  - intros Hr. unfold exec. rewrite Hp, Hr. do 2 eexists.
    repeat split; unfold enqueue; rewrite Ho; done.
  - unfold exec. rewrite Hp, Hs, Hq. eexists. repeat split.
Qed.

(** ** C4: TrySend on a full queue *)

(** The fast path of TrySend, run once for every item of [ms]. *)
Lemma trysend_fast_run ms s :
  panicked s = false -> wr_closed s = false ->
  (length (wr s) + length ms <= outQueueSize)%nat ->
  run (EvTrySend <$> ms) s =
  Some (set_returns (returns s ++ (TryFast <$> ms))
          (set_enq (enq s ++ (pair Producer <$> ms))
             (set_wr (wr s ++ ms) s))).
Proof.
  revert s. induction ms as [|m ms IH]; intros s Hp Ho Hl.
  - simpl. rewrite !app_nil_r. by destruct s.
  - simpl in *. unfold exec. rewrite Hp.
    assert (room s = true) as ->.
    { unfold room. apply Nat.ltb_lt. lia. }
    unfold enqueue. rewrite Ho. rewrite IH.
    + destruct s; peer_simpl. by rewrite <- !app_assoc.
    + by destruct s.
    + by destruct s.
    + destruct s; peer_simpl. rewrite length_app. simpl. lia.
Qed.

(** While nothing is taken from a full queue, it stays as it is. *)
Lemma full_step e s s' :
  room s = false -> e <> EvSendDeq ->
  exec e s = Some s' -> wr s' = wr s.
Proof. intros Hr He E. exec_inv E; done. Qed.

Lemma full_run evs s s' :
  room s = false -> Forall (fun e => e <> EvSendDeq) evs ->
  run evs s = Some s' -> wr s' = wr s.
Proof.
  revert s. induction evs as [|e evs IH]; intros s Hr Hf E; simpl in E.
  - by simplify_eq.
  - destruct (exec e s) as [s1|] eqn:E1; [|done].
    apply Forall_cons in Hf as [He Hf].
    pose proof (full_step _ _ _ Hr He E1) as Hw.
    rewrite <- Hw. apply IH; [|done|done].
    unfold room in *. by rewrite Hw.
Qed.

(** C4.  On a peer whose queue is empty and from which nothing is taken,
    [outQueueSize] calls of TrySend return nil from the first select and
    fill the queue; the next call finds the queue full and waits in its
    second select, where the send cannot proceed as long as the pump
    takes nothing, so that only the timer ends the wait: the call returns
    the error, and the message is neither in the queue nor written. *)
Theorem trysend_backpressure s ms m :
  panicked s = false -> wr_closed s = false ->
  wr s = [] -> trywait s = [] ->
  length ms = outQueueSize ->
  exists s1 s2 s3,
    run (EvTrySend <$> ms) s = Some s1 /\
    wr s1 = ms /\ returns s1 = returns s ++ (TryFast <$> ms) /\
    exec (EvTrySend m) s1 = Some s2 /\
    wr s2 = ms /\ returns s2 = returns s1 /\ trywait s2 = [m] /\
    (forall evs s',
        Forall (fun e => e <> EvSendDeq) evs -> run evs s2 = Some s' ->
        forall i, exec (EvTryWake i) s' = None) /\
    exec (EvTryTimeout 0) s2 = Some s3 /\
    returns s3 = returns s1 ++ [TryBlocked m] /\
    wr s3 = ms /\ enq s3 = enq s1 /\ conn s3 = conn s /\ trywait s3 = [].
Proof.
  intros Hp Ho Hw Ht Hl.
  pose proof (trysend_fast_run ms s Hp Ho) as Hr.
  rewrite Hw in Hr. simpl in Hr. specialize (Hr ltac:(lia)).
  set (s1 := set_returns _ _) in Hr.
  assert (room s1 = false) as Hfull.
  { unfold room. apply Nat.ltb_ge. subst s1. destruct s; simpl. lia. }
  assert (panicked s1 = false) as Hp1 by (subst s1; by destruct s).
  set (s2 := set_trywait (trywait s1 ++ [m]) s1).
  assert (trywait s2 = [m]) as Ht2.
  { subst s2 s1. destruct s; peer_simpl. by simplify_eq. }
  exists s1, s2,
    (ret (TryBlocked m) (set_trywait (delete 0%nat (trywait s2)) s2)).
  split; [exact Hr|].
  split; [subst s1; by destruct s|].
  split; [subst s1; by destruct s|].
  split; [unfold exec; by rewrite Hp1, Hfull|].
  split; [subst s2 s1; by destruct s|].
  split; [subst s2 s1; by destruct s|].
  split; [done|].
  split.
  { intros evs s' Hf Hrun i.
    assert (room s2 = false) as Hfull2 by (subst s2; by destruct s1).
    eapply full_run in Hrun as Hq; [|exact Hfull2|done].
    unfold exec. destruct (panicked s'); [done|].
    destruct (trywait s' !! i); [|done].
    unfold room in *. by rewrite Hq, Hfull2. }
  split.
  { unfold exec. rewrite Ht2.
    assert (panicked s2 = false) as -> by (subst s2; by destruct s1).
    done. }
  rewrite Ht2. subst s2 s1. destruct s; peer_simpl. by simplify_eq.
Qed.

(** ** C6: a codec failure does not end the session *)

Lemma recv_stream fs s :
  panicked s = false -> recv_pc s = RRead ->
  Forall (fun f => f.1 <> CloseMessage) fs ->
  run (recvSchedule fs) s =
  Some (set_log (log s ++ decodeErrors fs)
          (set_delivered (delivered s ++ decodeAll fs)
             (set_reads (reads s ++ fs) s))).
Proof.
  revert s. induction fs as [|[k b] fs IH]; intros s Hp Hr Hf.
  - simpl. rewrite !app_nil_r. by destruct s.
  - apply Forall_cons in Hf as [Hk Hf]. simpl in Hk.
    apply Z.eqb_neq in Hk.
    assert (decodeAll ((k, b) :: fs) =
            match Deserialize b with Some m => [m] | None => [] end
              ++ decodeAll fs) as ->.
    { unfold decodeAll. simpl. rewrite Hk. by destruct (Deserialize b). }
    assert (decodeErrors ((k, b) :: fs) =
            match Deserialize b with
            | Some _ => []
            | None => [LogDeserializeErr b]
            end ++ decodeErrors fs) as ->.
    { unfold decodeErrors. simpl. by destruct (Deserialize b). }
    destruct s; simpl in Hp, Hr; subst. simpl recvSchedule.
    destruct (Deserialize b) as [m|] eqn:Hd; simpl app.
    + erewrite run_cons;
        [|unfold exec; peer_simpl; rewrite Hk, Hd; reflexivity].
      erewrite run_cons; [|unfold exec; peer_simpl; reflexivity].
      rewrite IH by done. peer_simpl. by rewrite <- !app_assoc.
    + erewrite run_cons;
        [|unfold exec; peer_simpl; rewrite Hk, Hd; reflexivity].
      rewrite IH by done. peer_simpl. by rewrite <- !app_assoc.
Qed.

Lemma decodeAll_app fs1 fs2 :
  decodeAll (fs1 ++ fs2) = decodeAll fs1 ++ decodeAll fs2.
Proof. apply omap_app. Qed.

Lemma decodeErrors_app fs1 fs2 :
  decodeErrors (fs1 ++ fs2) = decodeErrors fs1 ++ decodeErrors fs2.
Proof. apply omap_app. Qed.

Lemma wellFormed_decode fs :
  Forall wellFormed fs ->
  length (decodeAll fs) = length fs /\ decodeErrors fs = [] /\
  Forall (fun f => f.1 <> CloseMessage) fs.
Proof.
  induction 1 as [|[k b] fs [Hk [m Hm]] _ (IH1 & IH2 & IH3)]; [done|].
  simpl in *. unfold decodeAll, decodeErrors in *. simpl.
  apply Z.eqb_neq in Hk as Hk'. rewrite Hk', Hm. simpl.
  split; [by rewrite IH1|]. split; [done|]. by constructor.
Qed.


(** ** C3: keepalive *)

Lemma ticks_step e s s' :
  e <> EvPong -> e <> EvTick false ->
  0 <= pendingPongs s <= 2 -> started s ->
  exec e s = Some s' ->
  ticksSeen s' = ticksSeen s + (if isTick e then 1 else 0) /\
  0 <= pendingPongs s' <= 2 /\ started s' /\
  forceCloseBudget s' = forceCloseBudget s.
Proof.
  unfold ticksSeen, started, forceCloseBudget. intros H1 H2 Hp Hs E.
  exec_inv E; try done.
  all: rewrite ?countb_app, ?countb_one; simpl.
  all: try (repeat split; (done || lia || (by destruct r))).
  all: try (apply Z.leb_le in Heqb0; repeat split; (done || lia)).
  all: try by specialize (Hs keepAlive).
  apply Z.leb_gt in Heqb0. rewrite wrap32_small by lia.
  repeat split; (done || lia).
Qed.

Lemma ticks_run evs s s' :
  silentRemote evs -> 0 <= pendingPongs s <= 2 -> started s ->
  run evs s = Some s' ->
  ticksSeen s' = ticksSeen s + Z.of_nat (countb isTick evs) /\
  0 <= pendingPongs s' <= 2 /\
  forceCloseBudget s' = forceCloseBudget s.
Proof.
  revert s. induction evs as [|e evs IH]; intros s Hf Hp Hs E; simpl in E.
  - simplify_eq. rewrite countb_nil. repeat split; lia.
  - destruct (exec e s) as [s1|] eqn:E1; [|done].
    apply Forall_cons in Hf as [[He1 He2] Hf].
    destruct (ticks_step _ _ _ He1 He2 Hp Hs E1) as (T1 & P1 & S1 & B1).
    destruct (IH s1 Hf P1 S1 E) as (T2 & P2 & B2).
    change (e :: evs) with ([e] ++ evs). rewrite countb_app, countb_one.
    split; [|split; [done|congruence]].
    rewrite T2, T1. destruct (isTick e); lia.
Qed.


(** ** C9: a short keepalive interval *)

(** C9 (amended).  For a positive interval below one second the new peer
    has the warning in its log and is made all the same: the Inbound Pump
    is in its read, the keepalive pump is spawned with the interval, and
    once started it has its pong handler set, its ticker running at that
    interval, and takes ticks. *)
Theorem short_keepalive_warns keepAlive :
  0 < keepAlive -> keepAlive < Second ->
  log (NewWebsocketPeer keepAlive) = [shortKeepaliveWarning] /\
  send_pc (NewWebsocketPeer keepAlive) = SStart keepAlive /\
  recv_pc (NewWebsocketPeer keepAlive) = RRead /\
  exists s,
    exec EvSendStart (NewWebsocketPeer keepAlive) = Some s /\
    panicked s = false /\ send_pc s = SIdle /\
    ticker s = Some keepAlive /\ pongHandler s = true /\
    forall ok, is_Some (exec (EvTick ok) s).
Proof.
  intros H0 H1. unfold NewWebsocketPeer, exec. simpl.
  assert ((keepAlive =? 0) = false) as -> by lia.
  assert ((keepAlive <? Second) = true) as -> by lia.
  assert ((keepAlive <=? 0) = false) as -> by lia.
  simpl. repeat split. eexists. repeat split. intros ok. by eexists.
Qed.

(** ** C5: a read failure in the Inbound Pump *)

Lemma stuck_step e s s' : stuck s -> exec e s = Some s' -> stuck s'.
Proof.
  unfold stuck, sendExited. intros (H1 & H2 & [r H3]) E.
  exec_inv E; try done; eauto.
Qed.

Lemma stuck_run evs s s' : stuck s -> run evs s = Some s' -> stuck s'.
Proof. apply (run_invariant stuck). intros; by eapply stuck_step. Qed.

(** The pump, left to itself with a nil somewhere in the queue, takes
    item after item, every write succeeding, until it returns. *)
Lemma pump_drains q s :
  panicked s = false -> send_pc s = SIdle -> wr s = q -> None ∈ q ->
  exists evs s',
    run evs s = Some s' /\ writerDone s' = true /\
    recv_pc s' = recv_pc s /\ panicked s' = false.
Proof.
  revert s. induction q as [|item q IH]; intros s Hp Hs Hw Hin.
  - by apply not_elem_of_nil in Hin.
  - destruct item as [m|].
    + apply elem_of_cons in Hin as [|Hin]; [done|].
      set (s0 := set_deq (deq s ++ [Some m]) (set_wr q s)).
      destruct (Serialize m) as [b|] eqn:Hm.
      * set (s1 := set_send_pc (SWriting m b) s0).
        destruct (IH (onWritten m b true s1))
          as (evs & s' & E & H1 & H2 & H3);
          [by destruct s..|done|].
        exists (EvSendDeq :: EvSendWrite true :: evs), s'.
        split; [|split; [done|split; [|done]]].
        -- assert (exec EvSendDeq s = Some s1) as E1.
           { unfold exec, onItem. by rewrite Hp, Hs, Hw, Hm. }
           assert (exec (EvSendWrite true) s1
                   = Some (onWritten m b true s1)) as E2.
           { unfold exec. subst s1 s0. destruct s; simpl in *.
             by rewrite Hp. }
           by rewrite (run_cons _ _ _ _ E1), (run_cons _ _ _ _ E2).
        -- rewrite H2. by destruct s.
      * destruct (IH (say (LogSerializeErr m) s0))
          as (evs & s' & E & H1 & H2 & H3);
          [by destruct s..|done|].
        exists (EvSendDeq :: evs), s'.
        split; [|split; [done|split; [|done]]].
        -- erewrite run_cons; [exact E|].
           unfold exec, onItem. by rewrite Hp, Hs, Hw, Hm.
        -- rewrite H2. by destruct s.
    + exists [EvSendDeq], (send_exit ExSentinel
                             (set_deq (deq s ++ [None]) (set_wr q s))).
      split; [|by destruct s].
      erewrite run_cons; [done|].
      unfold exec, onItem. by rewrite Hp, Hs, Hw.
Qed.

(** With room in the queue and the pump at its loop head, the Inbound
    Pump sends its sentinel, the pump drains down to it and returns, and
    the Inbound Pump sees Writer-Done and returns. *)
Lemma progress_room s :
  panicked s = false -> wr_closed s = false ->
  recv_pc s = REnq -> send_pc s = SIdle -> room s = true ->
  exists evs s',
    run evs s = Some s' /\ recv_pc s' = RDone /\ rd_closed s' = true.
Proof.
  intros Hp Ho Hr Hs Hroom.
  set (sb := set_recv_pc RWait (enqueue InboundPump None s)).
  assert (exec EvRecvEnq s = Some sb) as E1.
  { unfold exec. by rewrite Hp, Hr, Hroom. }
  destruct (pump_drains (wr s ++ [None]) sb)
    as (evs & s' & E2 & Hw & Hr' & Hp').
  { subst sb. unfold enqueue. rewrite Ho. by destruct s. }
  { subst sb. unfold enqueue. rewrite Ho. by destruct s. }
  { subst sb. unfold enqueue. rewrite Ho. by destruct s. }
  { apply elem_of_app. right. constructor. }
  assert (recv_pc s' = RWait) as Hr''.
  { rewrite Hr'. subst sb. unfold enqueue. rewrite Ho. by destruct s. }
  exists (EvRecvEnq :: evs ++ [EvRecvWait]), (recv_exit s').
  split; [|by destruct s'].
  rewrite (run_cons _ _ _ _ E1). apply run_snoc. exists s'.
  split; [done|]. unfold exec. by rewrite Hp', Hr'', Hw.
Qed.

Lemma progress_idle s :
  panicked s = false -> wr_closed s = false ->
  recv_pc s = REnq -> send_pc s = SIdle ->
  (length (wr s) <= outQueueSize)%nat ->
  exists evs s',
    run evs s = Some s' /\ recv_pc s' = RDone /\ rd_closed s' = true.
Proof.
  intros Hp Ho Hr Hs Hcap.
  destruct (room s) eqn:Hroom; [by apply progress_room|].
  unfold room in Hroom. apply Nat.ltb_ge in Hroom.
  destruct (wr s) as [|item rest] eqn:Hw.
  { simpl in Hroom. unfold outQueueSize in Hroom. lia. }
  simpl in Hcap.
  set (s0 := set_deq (deq s ++ [item]) (set_wr rest s)).
  assert (room s0 = true) as Hroom0.
  { unfold room. apply Nat.ltb_lt. subst s0. destruct s. simpl. lia. }
  destruct item as [m|].
  - destruct (Serialize m) as [b|] eqn:Hm.
    + set (s1 := set_send_pc (SWriting m b) s0).
      assert (exec EvSendDeq s = Some s1) as E1.
      { unfold exec, onItem. by rewrite Hp, Hs, Hw, Hm. }
      assert (exec (EvSendWrite true) s1 = Some (onWritten m b true s1))
        as E2.
      { unfold exec. subst s1 s0. destruct s; simpl in *. by rewrite Hp. }
      destruct (progress_room (onWritten m b true s1))
        as (evs & s' & E & H1 & H2);
        [by destruct s..| |].
      { unfold room in *. subst s1 s0. by destruct s. }
      exists (EvSendDeq :: EvSendWrite true :: evs), s'.
      split; [|done].
      by rewrite (run_cons _ _ _ _ E1), (run_cons _ _ _ _ E2).
    + assert (exec EvSendDeq s = Some (say (LogSerializeErr m) s0)) as E1.
      { unfold exec, onItem. by rewrite Hp, Hs, Hw, Hm. }
      destruct (progress_room (say (LogSerializeErr m) s0))
        as (evs & s' & E & H1 & H2);
        [by destruct s..| |].
      { unfold room in *. subst s0. by destruct s. }
      exists (EvSendDeq :: evs), s'. split; [|done].
      by rewrite (run_cons _ _ _ _ E1).
  - set (sa := send_exit ExSentinel s0).
    assert (exec EvSendDeq s = Some sa) as E1.
    { unfold exec, onItem. by rewrite Hp, Hs, Hw. }
    set (sb := set_recv_pc RWait (enqueue InboundPump None sa)).
    assert (exec EvRecvEnq sa = Some sb) as E2.
    { unfold exec.
      assert (panicked sa = false) as -> by (by destruct s).
      assert (recv_pc sa = REnq) as -> by (by destruct s).
      assert (room sa = true) as ->; [|done].
      unfold room in *. subst sa s0. by destruct s. }
    assert (exec EvRecvWait sb = Some (recv_exit sb)) as E3.
    { unfold exec. subst sb sa s0. unfold enqueue.
      destruct s; simpl in *. by rewrite Ho, Hp. }
    exists [EvSendDeq; EvRecvEnq; EvRecvWait], (recv_exit sb).
    split; [|by destruct sb].
    by rewrite (run_cons _ _ _ _ E1), (run_cons _ _ _ _ E2),
      (run_cons _ _ _ _ E3).
Qed.

(** As long as the Outbound Pump has not returned, the Inbound Pump can
    finish its fallback. *)
Lemma recv_progress s :
  panicked s = false -> wr_closed s = false ->
  recv_pc s = REnq -> (length (wr s) <= outQueueSize)%nat ->
  send_pc s = SIdle \/ (exists m b, send_pc s = SWriting m b) ->
  exists evs s',
    run evs s = Some s' /\ recv_pc s' = RDone /\ rd_closed s' = true.
Proof.
  intros Hp Ho Hr Hcap [Hs|(m & b & Hs)]; [by apply progress_idle|].
  assert (exec (EvSendWrite true) s = Some (onWritten m b true s)) as E1.
  { unfold exec. by rewrite Hp, Hs. }
  destruct (progress_idle (onWritten m b true s))
    as (evs & s' & E & H1 & H2); [by destruct s..|].
  exists (EvSendWrite true :: evs), s'. split; [|done].
  by rewrite (run_cons _ _ _ _ E1).
Qed.

Lemma renq_step e s s' :
  recv_pc s = REnq -> wr_closed s = false -> exec e s = Some s' ->
  recv_pc s' = REnq \/
  (e = EvRecvEnq /\ recv_pc s' = RWait /\ wr s' = wr s ++ [None]).
Proof. intros Hr Ho E. exec_inv E; try done; auto. Qed.

Lemma rwait_step e s s' :
  recv_pc s = RWait -> exec e s = Some s' ->
  recv_pc s' = RWait \/
  (e = EvRecvWait /\ writerDone s = true /\ recv_pc s' = RDone).
Proof. intros Hr E. exec_inv E; try done; auto. Qed.

(** A pump that panics at its start never raises Writer-Done for the
    Inbound Pump: the panic stops the peer. *)
Lemma doomed_step e s s' :
  (recv_pc s = REnq \/ recv_pc s = RWait) /\
  (panicked s = true \/ (pumpDoomed s /\ writerDone s = false)) ->
  exec e s = Some s' ->
  (recv_pc s' = REnq \/ recv_pc s' = RWait) /\
  (panicked s' = true \/ (pumpDoomed s' /\ writerDone s' = false)).
Proof.
  unfold pumpDoomed. intros [Hr [Hp|[(k & Hs & Hk) Hw]]] E.
  { unfold exec in E. by rewrite Hp in E. }
  exec_inv E; simplify_eq; try (destruct Hr; done).
  all: try (split; [by auto|]; right; split; [by exists k|done]).
  all: try (split; [by auto|]; by left).
  all: lia.
Qed.

Lemma doomed_run evs s s' :
  recv_pc s = REnq \/ recv_pc s = RWait ->
  pumpDoomed s -> writerDone s = false ->
  run evs s = Some s' -> recv_pc s' <> RDone.
Proof.
  intros Hr Hd Hw E.
  assert ((recv_pc s' = REnq \/ recv_pc s' = RWait) /\
          (panicked s' = true \/ (pumpDoomed s' /\ writerDone s' = false)))
    as [[H|H] _]; [|congruence..].
  eapply (run_invariant
            (fun s => (recv_pc s = REnq \/ recv_pc s = RWait) /\
                      (panicked s = true \/
                       (pumpDoomed s /\ writerDone s = false))));
    [|split; [exact Hr|right; by split]|exact E].
  intros e0 s0 s1 H0 E0. by eapply doomed_step.
Qed.

(** The pump enters its body. *)
Lemma pump_starts k s :
  panicked s = false -> send_pc s = SStart k -> 0 <= k ->
  exists s1,
    exec EvSendStart s = Some s1 /\
    panicked s1 = false /\ send_pc s1 = SIdle /\ wr s1 = wr s /\
    wr_closed s1 = wr_closed s /\ recv_pc s1 = recv_pc s.
Proof.
  intros Hp Hs Hk. unfold exec. rewrite Hp, Hs.
  destruct (k =? 0) eqn:E0; [eexists; split; [done|by destruct s]|].
  assert ((k <=? 0) = false) as -> by lia.
  eexists. split; [done|by destruct s].
Qed.

(** With the pump returned and room in the queue, the Inbound Pump sends
    its sentinel and finds Writer-Done raised. *)
Lemma progress_exited s :
  panicked s = false -> wr_closed s = false -> recv_pc s = REnq ->
  writerDone s = true -> room s = true -> canFinish s.
Proof.
  intros Hp Ho Hr Hw Hroom.
  set (sb := set_recv_pc RWait (enqueue InboundPump None s)).
  assert (exec EvRecvEnq s = Some sb) as E1.
  { unfold exec. by rewrite Hp, Hr, Hroom. }
  assert (exec EvRecvWait sb = Some (recv_exit sb)) as E2.
  { unfold exec. subst sb. unfold enqueue. destruct s; simpl in *.
    by rewrite Ho, Hp, Hw. }
  exists [EvRecvEnq; EvRecvWait], (recv_exit sb). split; [|by destruct sb].
  by rewrite (run_cons _ _ _ _ E1), (run_cons _ _ _ _ E2).
Qed.

Lemma countb_pos {A} (p : A -> bool) l :
  (0 < countb p l)%nat -> exists x, x ∈ l /\ p x = true.
Proof.
  induction l as [|x l IH]; [unfold countb; simpl; lia|].
  change (x :: l) with ([x] ++ l). rewrite countb_app, countb_one.
  destruct (p x) eqn:E.
  - intros _. exists x. split; [constructor|done].
  - intros H. destruct IH as (y & Hy & Hpy); [simpl in H; lia|].
    exists y. split; [by constructor|done].
Qed.

(** While the Inbound Pump waits for Writer-Done and the Outbound Pump
    has not returned, the sentinel of the Inbound Pump is in the queue. *)
Lemma wait_sentinel_queued keepAlive s :
  Inv keepAlive s -> recv_pc s = RWait -> ~ sendExited s -> None ∈ wr s.
Proof.
  intros HI Hr Hx.
  pose proof (ib_recv_enq _ (I_basic _ _ HI)) as Hc. rewrite Hr in Hc.
  destruct (countb_pos (isSentinelBy InboundPump) (enq s))
    as ([t m] & Hin & Hs); [lia|].
  assert (m = None) as ->.
  { unfold isSentinelBy in Hs. apply andb_true_iff in Hs as [_ Hs].
    apply negb_true_iff, bool_decide_eq_false in Hs.
    destruct m; [|done]. destruct Hs. by eexists. }
  assert (None ∈ (enq s).*2) as Hin2.
  { apply list_elem_of_fmap. by exists (t, None). }
  rewrite <- (I_fifo _ _ HI) in Hin2.
  apply elem_of_app in Hin2 as [Hd|Hw]; [|done].
  destruct (I_frames _ _ HI) as (ms & Hdq & _).
  assert (sentinelTail s = []) as Ht.
  { unfold sentinelTail. destruct (send_pc s) as [| | |r] eqn:Hs'; try done.
    destruct Hx. by exists r. }
  rewrite Hdq, Ht, app_nil_r in Hd.
  apply list_elem_of_fmap in Hd as (? & ? & _). done.
Qed.

(** The Inbound Pump waits for Writer-Done and the pump is at its loop
    head: the pump drains down to the first nil and returns. *)
Lemma wait_idle s :
  panicked s = false -> recv_pc s = RWait -> send_pc s = SIdle ->
  None ∈ wr s -> canFinish s.
Proof.
  intros Hp Hr Hs Hin.
  destruct (pump_drains (wr s) s Hp Hs eq_refl Hin)
    as (evs & s' & E & Hw & Hr' & Hp').
  exists (evs ++ [EvRecvWait]), (recv_exit s'). split; [|by destruct s'].
  apply run_snoc. exists s'. split; [done|].
  unfold exec. by rewrite Hp', Hr', Hr, Hw.
Qed.

Lemma wait_progress keepAlive s :
  Inv keepAlive s -> panicked s = false -> recv_pc s = RWait ->
  ~ pumpDoomed s -> canFinish s.
Proof.
  intros HI Hp Hr Hd.
  destruct (send_pc s) as [k| |m b|r] eqn:Hs.
  - assert (0 <= k) as Hk.
    { destruct (Z.le_gt_cases 0 k); [done|]. destruct Hd. exists k.
      split; [done|lia]. }
    assert (None ∈ wr s) as Hin.
    { apply (wait_sentinel_queued keepAlive); [done..|].
      intros [r Hx]. congruence. }
    destruct (pump_starts k s Hp Hs Hk)
      as (s1 & E1 & Hp1 & Hs1 & Hw1 & _ & Hr1).
    destruct (wait_idle s1) as (evs & s' & E & H1);
      [done|congruence|done|by rewrite Hw1|].
    exists (EvSendStart :: evs), s'. split; [|done].
    by rewrite (run_cons _ _ _ _ E1).
  - apply wait_idle; try done.
    apply (wait_sentinel_queued keepAlive); [done..|].
    intros [r Hx]. congruence.
  - assert (None ∈ wr s) as Hin.
    { apply (wait_sentinel_queued keepAlive); [done..|].
      intros [r Hx]. congruence. }
    assert (exec (EvSendWrite true) s = Some (onWritten m b true s)) as E1.
    { unfold exec. by rewrite Hp, Hs. }
    destruct (wait_idle (onWritten m b true s)) as (evs & s' & E & H1);
      [by destruct s..|].
    exists (EvSendWrite true :: evs), s'. split; [|done].
    by rewrite (run_cons _ _ _ _ E1).
  - assert (writerDone s = true) as Hw.
    { apply (I_done _ _ HI). by exists r. }
    exists [EvRecvWait], (recv_exit s). split; [|by destruct s].
    erewrite run_cons; [done|]. unfold exec. by rewrite Hp, Hr, Hw.
Qed.

Lemma enq_progress keepAlive s :
  Inv keepAlive s -> panicked s = false -> recv_pc s = REnq ->
  ~ (sendExited s /\ room s = false) -> ~ pumpDoomed s -> canFinish s.
Proof.
  intros HI Hp Hr Hj Hd.
  pose proof (I_basic _ _ HI) as Hb.
  pose proof (ib_wr_open _ Hb) as Ho. pose proof (ib_cap _ Hb) as Hcap.
  destruct (send_pc s) as [k| |m b|r] eqn:Hs.
  - assert (0 <= k) as Hk.
    { destruct (Z.le_gt_cases 0 k); [done|]. destruct Hd. exists k.
      split; [done|lia]. }
    destruct (pump_starts k s Hp Hs Hk)
      as (s1 & E1 & Hp1 & Hs1 & Hw1 & Ho1 & Hr1).
    destruct (progress_idle s1) as (evs & s' & E & H1);
      [done|congruence|congruence|done|by rewrite Hw1|].
    exists (EvSendStart :: evs), s'. split; [|done].
    by rewrite (run_cons _ _ _ _ E1).
  - apply recv_progress; auto.
  - apply recv_progress; eauto.
  - assert (writerDone s = true) as Hw.
    { apply (I_done _ _ HI). by exists r. }
    apply progress_exited; try done.
    destruct (room s) eqn:Hroom; [done|]. destruct Hj.
    split; [by exists r|done].
Qed.

(** C5 (amended).  On a read failure the Inbound Pump enqueues nothing,
    logs nothing and returns when the Explicit-Close Signal is set;
    otherwise it goes on to send the sentinel, which is the only way it
    leaves that statement, and then to wait for Writer-Done, which is the
    only way it leaves that one: when it has returned after its sentinel
    the Outbound Pump has returned.  When the Outbound Pump returned on a
    sentinel, everything queued ahead of that sentinel was taken and, if
    it encoded, written.  At its send of the sentinel the Inbound Pump can
    finish exactly when it is not so that the Outbound Pump has returned
    and the queue is full, and the Outbound Pump is not one that panics at
    its start; while it waits for Writer-Done it can finish exactly when
    the Outbound Pump is not one that panics at its start. *)
Theorem read_failure_path keepAlive evs s :
  run evs (NewWebsocketPeer keepAlive) = Some s ->
  panicked s = false ->
  (recv_pc s = RRead ->
   exists s',
     exec EvReadErr s = Some s' /\
     wr s' = wr s /\ enq s' = enq s /\ log s' = log s /\
     (closed s = true -> recv_pc s' = RDone /\ rd_closed s' = true) /\
     (closed s = false -> recv_pc s' = REnq /\ rd_closed s' = false)) /\
  (recv_pc s = REnq ->
   forall e s', exec e s = Some s' ->
     recv_pc s' = REnq \/
     (e = EvRecvEnq /\ recv_pc s' = RWait /\ wr s' = wr s ++ [None])) /\
  (recv_pc s = RWait ->
   forall e s', exec e s = Some s' ->
     recv_pc s' = RWait \/
     (e = EvRecvWait /\ writerDone s = true /\ recv_pc s' = RDone)) /\
  (recv_pc s = RDone ->
   countb (isSentinelBy InboundPump) (enq s) = 1%nat ->
   writerDone s = true /\ sendExited s) /\
  (send_pc s = SExited ExSentinel ->
   exists ms,
     deq s = (Some <$> ms) ++ [None] /\
     (dataFrames (conn s)).*1 = encodeAll ms /\
     allOk (dataFrames (conn s)) = true) /\
  (recv_pc s = REnq ->
   (canFinish s <->
    ~ (sendExited s /\ room s = false) /\ ~ pumpDoomed s)) /\
  (recv_pc s = RWait -> (canFinish s <-> ~ pumpDoomed s)).
Proof.
  intros Hrun Hp. apply Inv_reachable in Hrun as HI.
  pose proof (I_basic _ _ HI) as Hb.
  pose proof (ib_wr_open _ Hb) as Ho. pose proof (ib_rd _ Hb) as Hrd.
  assert (pumpDoomed s -> writerDone s = false) as Hdw.
  { intros (k & Hs & _). destruct (writerDone s) eqn:Hw; [|done].
    destruct (I_done _ _ HI) as [H1 _].
    destruct (H1 Hw) as [[r Hx]|Hx]; congruence. }
  split; [|split; [|split; [|split; [|split; [|split]]]]].
  - intros Hr. unfold exec. rewrite Hp, Hr. rewrite Hr in Hrd.
    destruct (closed s) eqn:Hc; eexists; (split; [done|]);
      destruct s; simpl in *; repeat split; try done.
  - intros Hr e s'. by apply renq_step.
  - intros Hr e s'. by apply rwait_step.
  - intros Hr Hc. split; [by apply (ib_recv_done _ Hb)|].
    destruct (I_done _ _ HI) as [Hw _].
    destruct Hw as [?|?]; [by apply (ib_recv_done _ Hb)|done|congruence].
  - intros Hs. destruct (I_frames _ _ HI) as (ms & Hd & Hf).
    pose proof (I_writes _ _ HI) as Hwr.
    unfold sentinelTail, inflight, inv_writes in *. rewrite Hs in *.
    rewrite app_nil_r in Hf. exists ms. by repeat split.
  - intros Hr. split.
    + intros (evs' & s' & E & Hd & _). split.
      * intros [Hx Hroom].
        assert (stuck s) as Hst by (by split).
        destruct (stuck_run _ _ _ Hst E) as [Hr' _]. congruence.
      * intros Hdoom.
        by apply (doomed_run evs' s s' (or_introl Hr) Hdoom (Hdw Hdoom) E).
    + intros [Hj Hd]. by apply (enq_progress keepAlive).
  - intros Hr. split.
    + intros (evs' & s' & E & Hd & _) Hdoom.
      by apply (doomed_run evs' s s' (or_intror Hr) Hdoom (Hdw Hdoom) E).
    + intros Hd. by apply (wait_progress keepAlive).
Qed.

(** ** Further invariants *)

Ltac peer_simpl2 := cbv [dequeuedMsgs] in *; peer_simpl.

Ltac log_simpl :=
  rewrite ?dataFrames_app, ?omap_app in *; simpl in *;
  rewrite ?app_nil_r in *.

Lemma rejected_app ms1 ms2 :
  rejected (ms1 ++ ms2) = rejected ms1 ++ rejected ms2.
Proof. apply List.filter_app. Qed.

Lemma dequeued_snoc (d : list (option Message)) x :
  omap id (d ++ [x]) = omap id d ++ match x with Some m => [m] | None => [] end.
Proof. rewrite omap_app. by destruct x. Qed.

Lemma rejected_one m :
  rejected [m] = match Serialize m with Some _ => [] | None => [m] end.
Proof. unfold rejected. simpl. by destruct (Serialize m). Qed.

Lemma inv_log_step e s s' :
  inv_log s -> exec e s = Some s' -> inv_log s'.
Proof.
  intros [H1 H2 H3] E. exec_inv E; peer_simpl2.
  all: split; peer_simpl2.
  all: unfold serializeErrs, deserializeErrs, writeErrs, undecodable in *.
  all: rewrite ?dequeued_snoc, ?rejected_app, ?rejected_one.
  all: log_simpl.
  all: try done.
  all: try (destruct r as [| | | |]; done).
  all: try match goal with
           | H : Serialize _ = _ |- _ => rewrite H
           end.
  all: try match goal with
           | H : (_ =? CloseMessage) = _ |- _ => rewrite H
           end.
  all: try match goal with
           | H : Deserialize _ = _ |- _ => rewrite H
           end.
  all: simpl; rewrite ?app_nil_r; try congruence.
  all: try (eexists _, _, _; split; [done|];
            match goal with
            | H : IsGoodbyeAck _ = _ |- _ => rewrite H
            end; rewrite ?H3; simpl; congruence).
Qed.

Lemma frameBeforeClose_snoc (c : list ConnOp) op :
  frameBeforeClose (c ++ [op]) =
  frameBeforeClose c &&
  (existsb isCloseFrame c || isCloseFrame op || negb (isConnClose Closer op)).
Proof.
  induction c as [|x c IH]; simpl.
  - destruct (isCloseFrame op); simpl; [done|]. by rewrite andb_true_r.
  - destruct (isCloseFrame x); simpl; [done|].
    rewrite IH. by rewrite andb_assoc.
Qed.

Lemma inv_wf_step e s s' :
  inv_basic s -> inv_wf s -> exec e s = Some s' -> inv_wf s'.
Proof.
  intros Hb [H1 H2 H3 H4] E. pose proof (ib_ctrl _ Hb) as Hc. clear Hb.
  exec_inv E.
  all: split; peer_simpl.
  all: rewrite ?countb_app, ?countb_one, ?frameBeforeClose_snoc, ?H4; simpl.
  all: rewrite ?Nat.add_0_r, ?orb_true_r, ?orb_false_r; try done.
  all: try (apply Forall_app; split; [done|]; repeat constructor; eauto).
  all: try (intros ? ? [= <- <-]; done).
  all: try (rewrite H3; done).
  all: try (simpl in Hc; by rewrite Hc).
Qed.

Lemma inv_grace_step e s s' :
  inv_basic s -> inv_grace s -> exec e s = Some s' -> inv_grace s'.
Proof.
  unfold inv_grace. intros Hb (pend & Hd & Hp) E.
  pose proof (ib_closed _ Hb) as Hc. clear Hb. exec_inv E.
  all: rewrite ?decodeAll_snoc; subst.
  all: rewrite ?app_nil_r in *.
  all: try (exists pend; split; [done|]; by simpl).
  all: try match goal with
           | H : (_ =? CloseMessage) = _ |- _ => rewrite H
           end.
  all: try match goal with
           | H : Deserialize _ = _ |- _ => rewrite H
           end.
  all: rewrite <- ?Hd, ?app_nil_r.
  all: try (destruct Hp as [-> Hp]).
  all: try (eexists []; rewrite ?app_nil_r; split; [done|]; by auto).
  all: try (eexists [_]; rewrite <- ?app_assoc; split; [done|]; by auto).
  all: try (exists pend; split; [done|]; by simpl).
  all: try (exists pend; split; [done|]; destruct Hp as [?|[? ?]]; auto).
  exists pend. split; [done|].
  destruct recv_pc0; try done; [by destruct Hp|]. destruct Hp as [?|[? ?]]; auto.
Qed.

Lemma inv_ping_init keepAlive :
  inv_ping keepAlive (NewWebsocketPeer keepAlive).
Proof. split; simpl; intros; by simplify_eq. Qed.

Lemma inv_ping_step keepAlive e s s' :
  inv_basic s ->
  inv_ping keepAlive s -> exec e s = Some s' -> inv_ping keepAlive s'.
Proof.
  intros Hb [H1 H2 H3] E. pose proof (ib_wr_open _ Hb) as Ho.
  pose proof (ib_closed _ Hb) as Hc. clear Hb. exec_inv E.
  all: split; peer_simpl; rewrite ?countb_app, ?countb_one; simpl.
  all: rewrite ?Nat.add_0_r; try done.
  all: try (intros; simplify_eq; eauto; fail).
  all: try (intros Hk; specialize (H1 _ eq_refl); subst; lia).
  all: try (intros Hk; destruct (H2 Hk); done).
Qed.

Lemma Inv2_init keepAlive : Inv2 keepAlive (NewWebsocketPeer keepAlive).
Proof.
  split.
  - split; simpl; by destruct (_ && _).
  - split; simpl; try done.
  - by exists [].
  - apply inv_ping_init.
Qed.

Lemma Inv2_step keepAlive e s s' :
  Inv keepAlive s -> Inv2 keepAlive s -> exec e s = Some s' ->
  Inv2 keepAlive s'.
Proof.
  intros HI [] E. pose proof (I_basic _ _ HI). split;
    eauto using inv_log_step, inv_wf_step, inv_grace_step, inv_ping_step.
Qed.

Lemma Inv2_reachable keepAlive evs s :
  run evs (NewWebsocketPeer keepAlive) = Some s ->
  Inv keepAlive s /\ Inv2 keepAlive s.
Proof.
  intros Hr.
  eapply (run_invariant (fun s => Inv keepAlive s /\ Inv2 keepAlive s));
    [|split; [apply Inv_init|apply Inv2_init]|done].
  intros e s0 s1 [H1 H2] E. split; [by eapply Inv_step|by eapply Inv2_step].
Qed.

(** ** Further properties of the pumps *)

Lemma omap_id_Some (ms : list Message) (t : list (option Message)) :
  omap id ((Some <$> ms) ++ t) = ms ++ omap id t.
Proof. induction ms as [|m ms IH]; [done|]. csimpl. by f_equal. Qed.

Lemma dequeued_of_frames (s : State) ms :
  deq s = (Some <$> ms) ++ sentinelTail s -> dequeuedMsgs s = ms.
Proof.
  unfold dequeuedMsgs, sentinelTail. intros ->. rewrite omap_id_Some.
  destruct (send_pc s) as [| | |[]]; simpl; by rewrite app_nil_r.
Qed.

Lemma encode_or_reject ms :
  (length (encodeAll ms) + length (rejected ms))%nat = length ms.
Proof.
  induction ms as [|m ms IH]; [done|].
  change (m :: ms) with ([m] ++ ms).
  rewrite encodeAll_app, rejected_app, !length_app, encodeAll_one,
    rejected_one.
  destruct (Serialize m); simpl in *; lia.
Qed.

(** X1.  The data frames handed to the connection, followed by the one
    in flight, are the encodings of the messages taken from the queue;
    these messages are a prefix of the enqueue history, and the rest of
    the history is what the queue holds. *)
Theorem outbound_fifo keepAlive evs s :
  run evs (NewWebsocketPeer keepAlive) = Some s ->
  (dataFrames (conn s)).*1 ++ inflight s = encodeAll (dequeuedMsgs s) /\
  (Some <$> dequeuedMsgs s) `prefix_of` (enq s).*2 /\
  deq s ++ wr s = (enq s).*2.
Proof.
  intros Hr. apply Inv_reachable in Hr as HI.
  destruct (I_frames _ _ HI) as (ms & Hd & Hf).
  rewrite (dequeued_of_frames _ _ Hd). split; [done|]. split.
  - exists (sentinelTail s ++ wr s). rewrite app_assoc, <- Hd.
    symmetry. apply (I_fifo _ _ HI).
  - apply (I_fifo _ _ HI).
Qed.

(** X2.  Every message taken from the queue is written or in flight, or
    it is logged as an encode failure; the encode failures in the log are
    the rejected messages, each once and in the order they were taken. *)
Theorem no_silent_drop keepAlive evs s :
  run evs (NewWebsocketPeer keepAlive) = Some s ->
  serializeErrs (log s) = rejected (dequeuedMsgs s) /\
  length (dequeuedMsgs s) =
    (length (dataFrames (conn s)) + length (inflight s) +
     length (serializeErrs (log s)))%nat.
Proof.
  intros Hr. apply Inv2_reachable in Hr as [HI HJ].
  pose proof (il_ser _ (J_log _ _ HJ)) as Hl. split; [done|].
  destruct (I_frames _ _ HI) as (ms & Hd & Hf).
  rewrite Hl, (dequeued_of_frames _ _ Hd).
  rewrite <- (encode_or_reject ms), Hf, length_app, length_fmap. lia.
Qed.

(** X3.  The messages delivered on the inbound channel are the decodings
    of the frames read, in order, but for at most the last one; once the
    pump has returned, that one is missing only if the Explicit-Close
    Signal is set.  The frames that failed to decode are in the log, in
    order. *)
Theorem inbound_fifo keepAlive evs s :
  run evs (NewWebsocketPeer keepAlive) = Some s ->
  (exists pend,
      delivered s ++ pend = decodeAll (reads s) /\
      (length pend <= 1)%nat /\
      (recv_pc s = RDone -> pend <> [] -> closed s = true)) /\
  deserializeErrs (log s) = undecodable (reads s).
Proof.
  intros Hr. apply Inv2_reachable in Hr as [HI HJ]. split.
  - destruct (J_grace _ _ HJ) as (pend & Hd & Hp). exists pend.
    split; [done|].
    destruct (recv_pc s); try (subst; split; [simpl; lia|done]).
    + destruct Hp as [-> _]. split; [simpl; lia|done].
    + destruct Hp as [->|[Hl Hc]]; (split; [simpl; lia|done]).
  - apply (il_deser _ (J_log _ _ HJ)).
Qed.

(** X4.  The queue never holds more than [outQueueSize] items, and on a
    full queue the send of Send, of Close and of the Inbound Pump's
    fallback cannot proceed. *)
Theorem queue_bound keepAlive evs s :
  run evs (NewWebsocketPeer keepAlive) = Some s ->
  (length (wr s) <= outQueueSize)%nat /\
  (length (wr s) = outQueueSize ->
   forall m,
     exec (EvSend m) s = None /\ exec EvCloseEnq s = None /\
     exec EvRecvEnq s = None).
Proof.
  intros Hr. apply Inv_reachable in Hr as HI.
  split; [apply (ib_cap _ (I_basic _ _ HI))|].
  intros Hl m. assert (room s = false) as Hroom.
  { unfold room. apply Nat.ltb_ge. lia. }
  unfold exec. rewrite Hroom.
  destruct (panicked s), (close_pc s), (recv_pc s); done.
Qed.

(** X5.  The Missed-Pong Counter stays between 0 and 2, so adding one to
    it never wraps. *)
Theorem pong_counter_range keepAlive evs s :
  run evs (NewWebsocketPeer keepAlive) = Some s ->
  0 <= pendingPongs s <= 2 /\
  wrap32 (pendingPongs s + 1) = pendingPongs s + 1.
Proof.
  intros Hr. apply Inv_reachable in Hr as HI.
  pose proof (ib_pongs _ (I_basic _ _ HI)) as Hp.
  split; [done|]. apply wrap32_small. lia.
Qed.

(** X6.  In a peer that has not panicked, Writer-Done is raised exactly
    when the Outbound Pump has returned. *)
Theorem writer_done_iff keepAlive evs s :
  run evs (NewWebsocketPeer keepAlive) = Some s ->
  panicked s = false ->
  (writerDone s = true <-> sendExited s).
Proof.
  intros Hr Hp. apply Inv_reachable in Hr as HI.
  destruct (I_done _ _ HI) as [H1 H2]. split; [|done].
  intros Hw. destruct (H1 Hw); [done|congruence].
Qed.

(** X7.  The inbound channel is closed exactly when the Inbound Pump has
    returned, and by then the pump has closed the connection. *)
Theorem inbound_channel_closed keepAlive evs s :
  run evs (NewWebsocketPeer keepAlive) = Some s ->
  (rd_closed s = true <-> recv_pc s = RDone) /\
  (rd_closed s = true ->
   countb (isConnClose InboundPump) (conn s) = 1%nat).
Proof.
  intros Hr. apply Inv_reachable in Hr as HI.
  pose proof (I_basic _ _ HI) as Hb.
  rewrite (ib_rd _ Hb), (ib_recv_conn _ Hb).
  destruct (recv_pc s); split; try split; try done.
Qed.

(** X8.  The Explicit-Close Signal is set only after Close has put its
    sentinel on the queue and seen Writer-Done: while the Outbound Pump
    runs, the Inbound Pump never finds the signal set. *)
Theorem explicit_close_after_drain keepAlive evs s :
  run evs (NewWebsocketPeer keepAlive) = Some s ->
  closed s = true ->
  writerDone s = true /\ sendExited s /\
  countb (isSentinelBy Closer) (enq s) = 1%nat.
Proof.
  intros Hr Hc. apply Inv_reachable in Hr as HI.
  pose proof (I_basic _ _ HI) as Hb. rewrite (ib_closed _ Hb) in Hc.
  assert (closePassedWait (close_pc s) = true) as Hw
    by (by destruct (close_pc s)).
  assert (panicked s = false) as Hp.
  { destruct (panicked s) eqn:E; [|done].
    apply (I_panic _ _ HI) in E. congruence. }
  pose proof (ib_wait _ Hb Hw) as Hd. split; [done|]. split.
  - destruct (I_done _ _ HI) as [H1 _]. destruct (H1 Hd); [done|congruence].
  - rewrite (ib_close_enq _ Hb). by destruct (close_pc s).
Qed.

(** *** After the Outbound Pump has returned *)

Lemma returned_step e s s' :
  sendExited s -> exec e s = Some s' ->
  send_pc s' = send_pc s /\
  dataFrames (conn s') = dataFrames (conn s) /\
  countb isPing (conn s') = countb isPing (conn s) /\
  deq s' = deq s /\ wr s `prefix_of` wr s'.
Proof.
  unfold sendExited. intros [r Hr] E. exec_inv E; try done.
  all: rewrite ?dataFrames_app, ?countb_app, ?countb_one; simpl.
  all: rewrite ?app_nil_r, ?Nat.add_0_r.
  all: repeat split; try done; try (by eexists).
Qed.

(** X9.  Once the Outbound Pump has returned, nothing more is taken from
    the queue and no frame is written, whatever happens next: what is
    sent afterwards is added to the queue and stays there. *)
Theorem nothing_after_return evs s s' :
  sendExited s -> run evs s = Some s' ->
  send_pc s' = send_pc s /\
  dataFrames (conn s') = dataFrames (conn s) /\
  countb isPing (conn s') = countb isPing (conn s) /\
  deq s' = deq s /\ wr s `prefix_of` wr s'.
Proof.
  revert s. induction evs as [|e evs IH]; intros s Hx E; simpl in E.
  - by simplify_eq.
  - destruct (exec e s) as [s1|] eqn:E1; [|done].
    destruct (returned_step _ _ _ Hx E1) as (A1 & A2 & A3 & A4 & A5).
    assert (sendExited s1) as Hx1.
    { destruct Hx as [r Hr]. exists r. congruence. }
    destruct (IH s1 Hx1 E) as (B1 & B2 & B3 & B4 & B5).
    repeat split; try congruence. by etrans.
Qed.

Lemma jammed_step e s s' :
  jammed s -> exec e s = Some s' -> jammed s' /\ wr s' = wr s.
Proof.
  unfold jammed, sendExited. intros (H2 & [r H3]) E.
  exec_inv E; try done; eauto.
Qed.

(** X10.  With the Outbound Pump returned and the queue full, the queue
    stays as it is for ever, and no Send, no waiting TrySend, no Close
    and no fallback of the Inbound Pump gets its item in: only the timer
    of TrySend ends a wait. *)
Theorem jammed_forever evs s s' :
  jammed s -> run evs s = Some s' ->
  wr s' = wr s /\
  forall m i,
    exec (EvSend m) s' = None /\ exec (EvTryWake i) s' = None /\
    exec EvCloseEnq s' = None /\ exec EvRecvEnq s' = None.
Proof.
  intros Hj Hr.
  assert (jammed s' /\ wr s' = wr s) as [[Hroom _] Hw].
  { revert s Hj Hr. induction evs as [|e evs IH]; intros s Hj E; simpl in E.
    - by simplify_eq.
    - destruct (exec e s) as [s1|] eqn:E1; [|done].
      destruct (jammed_step _ _ _ Hj E1) as [Hj1 Hw1].
      destruct (IH s1 Hj1 E) as [Hj2 Hw2]. split; [done|congruence]. }
  split; [done|]. intros m i. unfold exec. rewrite Hroom.
  destruct (panicked s'), (trywait s' !! i), (close_pc s'), (recv_pc s');
    done.
Qed.

(** X12.  Every frame written is well formed: a data frame has the
    peer's payload type and carries the codec's encoding of its message,
    a ping carries the keepalive text, and the only control frame is the
    close message. *)
Theorem frames_well_formed keepAlive evs s :
  run evs (NewWebsocketPeer keepAlive) = Some s ->
  Forall wfOp (conn s) /\
  (forall m b, send_pc s = SWriting m b -> Serialize m = Some b).
Proof.
  intros Hr. apply Inv2_reachable in Hr as [HI HJ].
  split; [apply (iw_conn _ (J_wf _ _ HJ))|apply (iw_inflight _ (J_wf _ _ HJ))].
Qed.

(** X13.  Close writes its close frame at most once, never closes the
    connection before it has written it, and has done both, once each,
    when it returns. *)
Theorem one_close_frame keepAlive evs s :
  run evs (NewWebsocketPeer keepAlive) = Some s ->
  (countb isCloseFrame (conn s) <= 1)%nat /\
  frameBeforeClose (conn s) = true /\
  (countb (isConnClose Closer) (conn s) <= countb isCloseFrame (conn s))%nat /\
  (close_pc s = CDone ->
   countb isCloseFrame (conn s) = 1%nat /\
   countb (isConnClose Closer) (conn s) = 1%nat).
Proof.
  intros Hr. apply Inv2_reachable in Hr as [HI HJ].
  pose proof (iw_ctrl _ (J_wf _ _ HJ)) as Hc.
  pose proof (iw_order _ (J_wf _ _ HJ)) as Ho.
  pose proof (ib_close_conn _ (I_basic _ _ HI)) as Hk.
  rewrite Hc, Hk. destruct (close_pc s); simpl; repeat split; try done; lia.
Qed.

(** X14.  A failed write of a data frame is the last data frame written:
    the pump returns on it, and logs it unless the message is a goodbye
    acknowledgement.  Unless the pump returned that way, every data
    write succeeded and no write error is in the log. *)
Theorem write_error_is_final keepAlive evs s :
  run evs (NewWebsocketPeer keepAlive) = Some s ->
  (send_pc s = SExited ExWriteErr ->
   exists pre m b,
     dataFrames (conn s) = pre ++ [(m, b, false)] /\
     allOk pre = true /\
     writeErrs (log s) = if IsGoodbyeAck m then [] else [m]) /\
  (send_pc s <> SExited ExWriteErr ->
   allOk (dataFrames (conn s)) = true /\ writeErrs (log s) = []).
Proof.
  intros Hr. apply Inv2_reachable in Hr as [HI HJ].
  pose proof (I_writes _ _ HI) as Hw.
  pose proof (il_write _ (J_log _ _ HJ)) as Hl.
  unfold inv_writes in Hw. split.
  - intros Hs. rewrite Hs in Hw, Hl.
    destruct Hw as (pre & f & Hd & Hf & Hok).
    destruct Hl as (pre' & m & b & Hd' & Hlog).
    rewrite Hd in Hd'. apply app_inj_tail in Hd' as [-> ->].
    by exists pre', m, b.
  - intros Hs. destruct (send_pc s) as [| | |[]]; try done.
Qed.

(** X16.  A peer made with keepalive 0 never has a ticker or a pong
    handler, never writes a ping and never panics; one made with a
    negative keepalive never has a ticker and never writes a ping. *)
Theorem no_keepalive_no_ping keepAlive evs s :
  run evs (NewWebsocketPeer keepAlive) = Some s ->
  keepAlive <= 0 ->
  ticker s = None /\ countb isPing (conn s) = 0%nat /\
  (keepAlive = 0 -> pongHandler s = false /\ panicked s = false).
Proof.
  intros Hr Hk. apply Inv2_reachable in Hr as [HI HJ].
  destruct (J_ping _ _ HJ) as [_ H2 H3]. destruct (H2 Hk).
  split; [done|]. split; [done|]. exact H3.
Qed.

(** X17.  The Outbound Pump closes the connection itself only when it
    returns on the pong timeout: not on a sentinel, not on a failed write
    and not on a failed ping. *)
Theorem pump_closes_on_timeout_only keepAlive evs s :
  run evs (NewWebsocketPeer keepAlive) = Some s ->
  (countb (isConnClose OutboundPump) (conn s) = 1%nat <->
   send_pc s = SExited ExPongTimeout) /\
  (send_pc s <> SExited ExPongTimeout ->
   countb (isConnClose OutboundPump) (conn s) = 0%nat) /\
  (send_pc s = SExited ExPongTimeout -> 0 < keepAlive).
Proof.
  intros Hr. apply Inv_reachable in Hr as HI.
  pose proof (ib_send_conn _ (I_basic _ _ HI)) as Hc. rewrite Hc.
  split; [|split].
  - destruct (send_pc s) as [| | |[]]; split; done.
  - destruct (send_pc s) as [| | |[]]; done.
  - apply (im_timeout _ _ (I_mode _ _ HI)).
Qed.

(** *** A remote that answers *)

Lemma answered_step c e evs s s' :
  answering c s -> answered c (e :: evs) = true -> exec e s = Some s' ->
  countb (isConnClose OutboundPump) (conn s')
    = countb (isConnClose OutboundPump) (conn s) /\
  exists c', answering c' s' /\ answered c' evs = true.
Proof.
  unfold answering. intros (Hc & Hs & Ht) Ha E.
  exec_inv E; simpl in Ha.
  all: rewrite ?countb_app, ?countb_one; simpl; rewrite ?Nat.add_0_r.
  all: try (split; [done|]; exists c; repeat split; (done || lia); fail).
  all: try (split; [done|]; exists c; split; [|done];
            split; [done|]; split; [done|]; intros; by auto).
  all: try (split; [done|]; exists c; split; [|done];
            split; [done|]; split; [done|]; intros; lia).
  all: try (destruct Ht as [Hh Hp]; [done|]).
  all: try (apply andb_true_iff in Ha as [Hlt Ha]; apply Z.ltb_lt in Hlt).
  all: try (apply Z.leb_le in Heqb0; lia).
  all: try (split; [done|]; exists 0; split; [|done];
            split; [done|]; split; [done|]; intros; split; (done || lia)).
  all: try (split; [done|]; exists (c + 1); split; [|done];
            split; [lia|]; split; [done|]; intros;
            rewrite wrap32_small by lia; split; (done || lia)).
  all: try (split; [done|]; exists (c + 1); split; [|done];
            split; [lia|]; split; [done|]; intros; done).
  split; [done|]. exists 0. split; [|done]. split; [done|]. split; [done|].
  intros Hn. by destruct (Ht Hn).
Qed.

Lemma answered_run c evs s s' :
  answering c s -> answered c evs = true -> run evs s = Some s' ->
  send_pc s' <> SExited ExPongTimeout /\
  countb (isConnClose OutboundPump) (conn s')
    = countb (isConnClose OutboundPump) (conn s).
Proof.
  revert c s. induction evs as [|e evs IH]; intros c s Hc Ha E.
  - simpl in E. simplify_eq. split; [apply Hc|done].
  - simpl in E. destruct (exec e s) as [s1|] eqn:E1; [|done].
    destruct (answered_step _ _ _ _ _ Hc Ha E1) as (Hn & c' & Hc' & Ha').
    destruct (IH c' s1 Hc' Ha' E) as [H1 H2]. split; [done|congruence].
Qed.


(** *** The calls of TrySend *)

Lemma try_step e s s' :
  wr_closed s = false -> exec e s = Some s' ->
  wr_closed s' = false /\
  (length (returns s') + length (trywait s'))%nat =
    (length (returns s) + length (trywait s) +
     if isTrySendEv e then 1 else 0)%nat /\
  (countb byProducer (enq s') + countb isTryOk (returns s))%nat =
    (countb byProducer (enq s) + countb isTryOk (returns s') +
     if isSendEv e then 1 else 0)%nat.
Proof.
  intros Ho E. exec_inv E; try done.
  all: rewrite ?countb_app, ?countb_one, ?length_app; simpl.
  all: try match goal with
           | H : _ !! _ = Some _ |- _ =>
               rewrite (length_delete _ _ (mk_is_Some _ _ H));
               apply lookup_lt_Some in H
           end.
  all: repeat split; try done; lia.
Qed.

Lemma try_run evs s s' :
  wr_closed s = false -> run evs s = Some s' ->
  (length (returns s') + length (trywait s'))%nat =
    (length (returns s) + length (trywait s) + countb isTrySendEv evs)%nat /\
  (countb byProducer (enq s') + countb isTryOk (returns s))%nat =
    (countb byProducer (enq s) + countb isTryOk (returns s') +
     countb isSendEv evs)%nat.
Proof.
  revert s. induction evs as [|e evs IH]; intros s Ho E; simpl in E.
  - simplify_eq. rewrite !countb_nil. lia.
  - destruct (exec e s) as [s1|] eqn:E1; [|done].
    destruct (try_step _ _ _ Ho E1) as (Ho1 & A1 & A2).
    destruct (IH s1 Ho1 E) as (B1 & B2).
    change (e :: evs) with ([e] ++ evs). rewrite !countb_app, !countb_one.
    split; lia.
Qed.

(** X18.  Every call of TrySend is either still waiting or has returned,
    once; and the producers' items in the queue history are those of the
    Send calls and of the TrySend calls that returned nil: a call that
    returned the error left nothing in the queue. *)
Theorem trysend_accounting keepAlive evs s :
  run evs (NewWebsocketPeer keepAlive) = Some s ->
  (length (returns s) + length (trywait s))%nat = countb isTrySendEv evs /\
  countb byProducer (enq s) =
    (countb isSendEv evs + countb isTryOk (returns s))%nat.
Proof.
  intros Hr.
  destruct (try_run evs (NewWebsocketPeer keepAlive) s eq_refl Hr)
    as [H1 H2].
  simpl in *. rewrite countb_nil in H2. lia.
Qed.

(** *** Close can finish *)

(** As [pump_drains], keeping track of what the drain leaves alone. *)
Lemma pump_drains_close q s :
  panicked s = false -> send_pc s = SIdle -> wr s = q -> None ∈ q ->
  exists evs s',
    run evs s = Some s' /\ writerDone s' = true /\
    close_pc s' = close_pc s /\ closed s' = closed s /\
    enq s' = enq s /\ send_pc s' = SExited ExSentinel /\
    panicked s' = false.
Proof.
  revert s. induction q as [|item q IH]; intros s Hp Hs Hw Hin.
  - by apply not_elem_of_nil in Hin.
  - destruct item as [m|].
    + apply elem_of_cons in Hin as [|Hin]; [done|].
      set (s0 := set_deq (deq s ++ [Some m]) (set_wr q s)).
      destruct (Serialize m) as [b|] eqn:Hm.
      * set (s1 := set_send_pc (SWriting m b) s0).
        destruct (IH (onWritten m b true s1))
          as (evs & s' & E & H1 & H2 & H3 & H4 & H5 & H6);
          [by destruct s..|done|].
        exists (EvSendDeq :: EvSendWrite true :: evs), s'.
        assert (exec EvSendDeq s = Some s1) as E1.
        { unfold exec, onItem. by rewrite Hp, Hs, Hw, Hm. }
        assert (exec (EvSendWrite true) s1
                = Some (onWritten m b true s1)) as E2.
        { unfold exec. subst s1 s0. destruct s; simpl in *.
          by rewrite Hp. }
        split; [by rewrite (run_cons _ _ _ _ E1), (run_cons _ _ _ _ E2)|].
        split; [done|]. split; [rewrite H2; by destruct s|].
        split; [rewrite H3; by destruct s|].
        split; [rewrite H4; by destruct s|]. done.
      * destruct (IH (say (LogSerializeErr m) s0))
          as (evs & s' & E & H1 & H2 & H3 & H4 & H5 & H6);
          [by destruct s..|done|].
        exists (EvSendDeq :: evs), s'.
        assert (exec EvSendDeq s = Some (say (LogSerializeErr m) s0)) as E1.
        { unfold exec, onItem. by rewrite Hp, Hs, Hw, Hm. }
        split; [by rewrite (run_cons _ _ _ _ E1)|].
        split; [done|]. split; [rewrite H2; by destruct s|].
        split; [rewrite H3; by destruct s|].
        split; [rewrite H4; by destruct s|]. done.
    + exists [EvSendDeq], (send_exit ExSentinel
                             (set_deq (deq s ++ [None]) (set_wr q s))).
      split; [|by destruct s].
      erewrite run_cons; [done|].
      unfold exec, onItem. by rewrite Hp, Hs, Hw.
Qed.

(** The statements of Close after its wait. *)
Lemma close_tail s :
  panicked s = false -> close_pc s = CWait -> writerDone s = true ->
  closed s = false ->
  exists s',
    run [EvCloseWait; EvCloseSignal; EvCloseCtrl true; EvCloseConn] s
      = Some s' /\
    close_pc s' = CDone /\ closed s' = true /\ closeFrameSent s' = true /\
    enq s' = enq s /\ send_pc s' = send_pc s.
Proof.
  intros Hp Hc Hw Hx. destruct s; simpl in *; subst.
  eexists. split; [reflexivity|]. peer_simpl. repeat split.
  rewrite !existsb_app. simpl. by destruct (existsb isCloseFrame conn0).
Qed.

Lemma close_room s :
  panicked s = false -> wr_closed s = false -> closed s = false ->
  close_pc s = CEnq -> send_pc s = SIdle -> room s = true ->
  exists evs s',
    run evs s = Some s' /\
    close_pc s' = CDone /\ closed s' = true /\ closeFrameSent s' = true /\
    enq s' = enq s ++ [(Closer, None)] /\ send_pc s' = SExited ExSentinel.
Proof.
  intros Hp Ho Hx Hc Hs Hroom.
  set (sb := set_close_pc CWait (enqueue Closer None s)).
  assert (exec EvCloseEnq s = Some sb) as E1.
  { unfold exec. by rewrite Hp, Hc, Hroom. }
  destruct (pump_drains_close (wr s ++ [None]) sb)
    as (evs & s1 & E2 & Hw & Hc1 & Hx1 & He1 & Hs1 & Hp1).
  { subst sb. unfold enqueue. rewrite Ho. by destruct s. }
  { subst sb. unfold enqueue. rewrite Ho. by destruct s. }
  { subst sb. unfold enqueue. rewrite Ho. by destruct s. }
  { apply elem_of_app. right. constructor. }
  assert (close_pc s1 = CWait) as Hc2.
  { rewrite Hc1. subst sb. unfold enqueue. rewrite Ho. by destruct s. }
  assert (closed s1 = false) as Hx2.
  { rewrite Hx1. subst sb. unfold enqueue. rewrite Ho. by destruct s. }
  assert (enq s1 = enq s ++ [(Closer, None)]) as He2.
  { rewrite He1. subst sb. unfold enqueue. rewrite Ho. by destruct s. }
  destruct (close_tail s1 Hp1 Hc2 Hw Hx2)
    as (s' & E3 & H1 & H2 & H3 & H4 & H5).
  exists (EvCloseEnq :: evs ++
          [EvCloseWait; EvCloseSignal; EvCloseCtrl true; EvCloseConn]), s'.
  split; [rewrite (run_cons _ _ _ _ E1), run_app, E2; exact E3|].
  split; [done|]. split; [done|]. split; [done|].
  split; congruence.
Qed.

Lemma close_idle s :
  panicked s = false -> wr_closed s = false -> closed s = false ->
  close_pc s = CEnq -> send_pc s = SIdle ->
  (length (wr s) <= outQueueSize)%nat ->
  exists evs s',
    run evs s = Some s' /\
    close_pc s' = CDone /\ closed s' = true /\ closeFrameSent s' = true /\
    enq s' = enq s ++ [(Closer, None)] /\ send_pc s' = SExited ExSentinel.
Proof.
  intros Hp Ho Hx Hc Hs Hcap.
  destruct (room s) eqn:Hroom; [by apply close_room|].
  unfold room in Hroom. apply Nat.ltb_ge in Hroom.
  destruct (wr s) as [|item rest] eqn:Hw.
  { simpl in Hroom. unfold outQueueSize in Hroom. lia. }
  simpl in Hcap.
  set (s0 := set_deq (deq s ++ [item]) (set_wr rest s)).
  assert (room s0 = true) as Hroom0.
  { unfold room. apply Nat.ltb_lt. subst s0. destruct s. simpl. lia. }
  destruct item as [m|].
  - destruct (Serialize m) as [b|] eqn:Hm.
    + set (s1 := set_send_pc (SWriting m b) s0).
      assert (exec EvSendDeq s = Some s1) as E1.
      { unfold exec, onItem. by rewrite Hp, Hs, Hw, Hm. }
      assert (exec (EvSendWrite true) s1 = Some (onWritten m b true s1))
        as E2.
      { unfold exec. subst s1 s0. destruct s; simpl in *. by rewrite Hp. }
      destruct (close_room (onWritten m b true s1))
        as (evs & s' & E & H1 & H2 & H3 & H4 & H5);
        [by destruct s..| |].
      { unfold room in *. subst s1 s0. by destruct s. }
      exists (EvSendDeq :: EvSendWrite true :: evs), s'.
      split; [by rewrite (run_cons _ _ _ _ E1), (run_cons _ _ _ _ E2)|].
      split; [done|]. split; [done|]. split; [done|]. split; [|done].
      rewrite H4. by destruct s.
    + assert (exec EvSendDeq s = Some (say (LogSerializeErr m) s0)) as E1.
      { unfold exec, onItem. by rewrite Hp, Hs, Hw, Hm. }
      destruct (close_room (say (LogSerializeErr m) s0))
        as (evs & s' & E & H1 & H2 & H3 & H4 & H5);
        [by destruct s..| |].
      { unfold room in *. subst s0. by destruct s. }
      exists (EvSendDeq :: evs), s'.
      split; [by rewrite (run_cons _ _ _ _ E1)|].
      split; [done|]. split; [done|]. split; [done|]. split; [|done].
      rewrite H4. by destruct s.
  - set (sa := send_exit ExSentinel s0).
    assert (exec EvSendDeq s = Some sa) as E1.
    { unfold exec, onItem. by rewrite Hp, Hs, Hw. }
    set (sb := set_close_pc CWait (enqueue Closer None sa)).
    assert (exec EvCloseEnq sa = Some sb) as E2.
    { unfold exec.
      assert (panicked sa = false) as -> by (by destruct s).
      assert (close_pc sa = CEnq) as -> by (by destruct s).
      assert (room sa = true) as ->; [|done].
      unfold room in *. subst sa s0. by destruct s. }
    destruct (close_tail sb) as (s' & E3 & H1 & H2 & H3 & H4 & H5);
      [subst sb sa s0; unfold enqueue; destruct s; simpl in *;
       rewrite ?Ho; done..|].
    exists (EvSendDeq :: EvCloseEnq ::
            [EvCloseWait; EvCloseSignal; EvCloseCtrl true; EvCloseConn]),
      s'.
    split; [by rewrite (run_cons _ _ _ _ E1), (run_cons _ _ _ _ E2)|].
    split; [done|]. split; [done|]. split; [done|]. split.
    + rewrite H4. subst sb sa s0. unfold enqueue. destruct s; simpl in *.
      by rewrite Ho.
    + rewrite H5. subst sb sa s0. unfold enqueue. destruct s; simpl in *.
      by rewrite Ho.
Qed.

(** X11.  As long as the Outbound Pump has not returned, a Close that
    has been called, or is called now, can run to its end with nothing
    but its sentinel added to the queue: the Explicit-Close Signal is set
    and the close frame is written, and the Outbound Pump has returned on
    the first nil of the queue history, the sentinel of Close or a nil
    put there before it.  Every message ahead of that nil has been taken
    and, if it encodes, written, every write succeeding; what is queued
    behind that nil stays in the queue. *)
Theorem close_can_finish keepAlive evs s :
  run evs (NewWebsocketPeer keepAlive) = Some s ->
  panicked s = false -> pumpRunning s ->
  close_pc s = CNotCalled \/ close_pc s = CEnq ->
  exists evs' s',
    run evs' s = Some s' /\
    close_pc s' = CDone /\ closed s' = true /\ closeFrameSent s' = true /\
    enq s' = enq s ++ [(Closer, None)] /\
    send_pc s' = SExited ExSentinel /\
    exists ms,
      (enq s).*2 ++ [None] = (Some <$> ms) ++ None :: wr s' /\
      (dataFrames (conn s')).*1 = encodeAll ms /\
      allOk (dataFrames (conn s')) = true.
Proof.
  intros Hr Hp Hs Hc. apply Inv_reachable in Hr as HI.
  pose proof (I_basic _ _ HI) as Hb.
  pose proof (ib_wr_open _ Hb) as Ho. pose proof (ib_cap _ Hb) as Hcap.
  pose proof (ib_closed _ Hb) as Hx.
  assert (forall s0, panicked s0 = false -> wr_closed s0 = false ->
            closed s0 = false -> close_pc s0 = CEnq -> pumpRunning s0 ->
            (length (wr s0) <= outQueueSize)%nat ->
            exists evs' s',
              run evs' s0 = Some s' /\ close_pc s' = CDone /\
              closed s' = true /\ closeFrameSent s' = true /\
              enq s' = enq s0 ++ [(Closer, None)] /\
              send_pc s' = SExited ExSentinel) as Hgo.
  { intros s0 Hp0 Ho0 Hx0 Hc0 [Hs0|(m & b & Hs0)] Hcap0;
      [by apply close_idle|].
    assert (exec (EvSendWrite true) s0 = Some (onWritten m b true s0))
      as E1.
    { unfold exec. by rewrite Hp0, Hs0. }
    destruct (close_idle (onWritten m b true s0))
      as (evs' & s' & E & H1 & H2 & H3 & H4 & H5); [by destruct s0..|].
    exists (EvSendWrite true :: evs'), s'.
    split; [by rewrite (run_cons _ _ _ _ E1)|].
    split; [done|]. split; [done|]. split; [done|]. split; [|done].
    rewrite H4. by destruct s0. }
  assert (exists evs' s',
            run evs' s = Some s' /\ close_pc s' = CDone /\
            closed s' = true /\ closeFrameSent s' = true /\
            enq s' = enq s ++ [(Closer, None)] /\
            send_pc s' = SExited ExSentinel)
    as (evs' & s' & E & H1 & H2 & H3 & H4 & H5).
  { destruct Hc as [Hc|Hc].
    - assert (exec EvCloseCall s = Some (set_close_pc CEnq s)) as E1.
      { unfold exec. by rewrite Hp, Hc. }
      rewrite Hc in Hx.
      destruct (Hgo (set_close_pc CEnq s))
        as (evs' & s' & E & H1 & H2 & H3 & H4 & H5);
        [by destruct s..| |by destruct s|].
      { destruct Hs as [Hs|(m & b & Hs)]; [left|right; exists m, b];
          by destruct s. }
      exists (EvCloseCall :: evs'), s'.
      split; [by rewrite (run_cons _ _ _ _ E1)|].
      split; [done|]. split; [done|]. split; [done|]. split; [|done].
      rewrite H4. by destruct s.
    - rewrite Hc in Hx. by apply Hgo. }
  exists evs', s'. split; [done|]. split; [done|]. split; [done|].
  split; [done|]. split; [done|]. split; [done|].
  assert (run (evs ++ evs') (NewWebsocketPeer keepAlive) = Some s') as Hr'
    by (by rewrite run_app, Hr).
  apply Inv_reachable in Hr' as HI'.
  destruct (I_frames _ _ HI') as (ms & Hd & Hf).
  pose proof (I_writes _ _ HI') as Hwr. pose proof (I_fifo _ _ HI') as Hq.
  unfold sentinelTail, inflight, inv_writes, inv_fifo in *.
  rewrite H5 in *. rewrite app_nil_r in Hf.
  exists ms. split; [|by split].
  rewrite H4, fmap_app, Hd, <- app_assoc in Hq. symmetry. exact Hq.
Qed.

End PeerFacts.

(** ** Facts about connecting *)

Section ConnectFacts.

Context {TLSConfig CookieJar URL NetConn Conn Ctx : Type}.
Variable url_Parse : string -> option URL.
Variable Dial :
  Dialer (TLSConfig := TLSConfig) (CookieJar := CookieJar) (URL := URL)
    (NetConn := NetConn) -> DialCall -> string -> option Conn.

Local Abbreviation makeDialer := (makeDialer url_Parse).
Local Abbreviation ConnectWebsocketPeerContext :=
  (ConnectWebsocketPeerContext (Ctx := Ctx) url_Parse Dial).

(** ** C8: the compression request *)

(** C8 (what the code does).  The dialer made for a supplied configuration
    asks for compression whatever the configuration's [EnableCompression]
    says, and the connect functions dial with that dialer. *)
Theorem compression_ignores_config protocol tlsConfig dial cfg dialer :
  makeDialer protocol tlsConfig dial (Some cfg) = inr dialer ->
  Dialer_EnableCompression dialer = true /\
  Dialer_Jar dialer = Jar cfg /\
  forall ctx routerURL serialization payloadType serializer,
    protocolFor serialization = Some (protocol, payloadType, serializer) ->
    ConnectWebsocketPeerContext ctx routerURL serialization tlsConfig dial
      (Some cfg) =
    match Dial dialer (match ctx with
                       | None => CallDialContext
                       | Some _ => CallDial
                       end) routerURL with
    | None => inl ErrDial
    | Some conn =>
        inr {| peer_conn := conn; peer_serializer := serializer;
               peer_payloadType := payloadType; peer_keepAlive := 0 |}
    end.
Proof.
  intros H. split; [|split].
  - unfold makeDialer in H. repeat case_match; by simplify_eq.
  - unfold makeDialer in H. repeat case_match; by simplify_eq.
  - intros ctx routerURL serialization payloadType serializer Hp.
    unfold ConnectWebsocketPeerContext. by rewrite Hp, H.
Qed.

(** ** Further properties of connecting *)

Local Abbreviation DialerT :=
  (Dialer (TLSConfig := TLSConfig) (CookieJar := CookieJar) (URL := URL)
     (NetConn := NetConn)).
Local Abbreviation ConfigT := (WebsocketConfig (CookieJar := CookieJar)).

(** X19.  A connect that succeeds was asked for one of the three
    serializations: JSON goes with text frames, MessagePack and CBOR with
    binary frames; the dialer it dialed with offered exactly the one
    subprotocol of that serialization; and the peer is made with
    keepalive 0. *)
Theorem connect_success ctx routerURL serialization tlsConfig dial wsCfg
    args :
  ConnectWebsocketPeerContext ctx routerURL serialization tlsConfig dial
    wsCfg = inr args ->
  peer_keepAlive args = 0 /\
  (exists protocol dialer,
      protocolFor serialization
        = Some (protocol, peer_payloadType args, peer_serializer args) /\
      makeDialer protocol tlsConfig dial wsCfg = inr dialer /\
      Subprotocols dialer = [protocol] /\
      Dial dialer (match ctx with
                   | None => CallDialContext
                   | Some _ => CallDial
                   end) routerURL = Some (peer_conn args)) /\
  ((serialization = JSON /\ peer_payloadType args = TextMessage /\
    peer_serializer args = JSONSerializer) \/
   (serialization = MSGPACK /\ peer_payloadType args = BinaryMessage /\
    peer_serializer args = MessagePackSerializer) \/
   (serialization = CBOR /\ peer_payloadType args = BinaryMessage /\
    peer_serializer args = CBORSerializer)).
Proof.
  unfold ConnectWebsocketPeerContext. intros H.
  destruct (protocolFor serialization) as [[[protocol pt] sz]|] eqn:Hp;
    [|done].
  destruct (makeDialer protocol tlsConfig dial wsCfg) as [|dialer] eqn:Hd;
    [done|].
  destruct (Dial dialer _ routerURL) as [conn|] eqn:Hc; [|done].
  injection H as <-. simpl. split; [done|]. split.
  - exists protocol, dialer. repeat split; try done.
    unfold makeDialer in Hd. repeat case_match; by simplify_eq.
  - destruct serialization; simpl in Hp; simplify_eq; auto.
Qed.

(** X20.  The three ways a connect fails, in the order the function
    checks them.  It reports an unsupported serialization exactly when the
    serialization is none of the three, whatever the other arguments are;
    a proxy URL error exactly when the serialization is supported and the
    configuration's proxy URL is not empty and does not parse, whatever
    the dialer would answer; and a dial error exactly when the dialer it
    made fails. *)
Theorem connect_refusals ctx routerURL serialization tlsConfig dial wsCfg :
  (forall s,
      ConnectWebsocketPeerContext ctx routerURL serialization tlsConfig dial
        wsCfg = inl (ErrUnsupportedSerialization s) <->
      s = serialization /\ protocolFor serialization = None) /\
  (ConnectWebsocketPeerContext ctx routerURL serialization tlsConfig dial
     wsCfg = inl ErrParseProxyURL <->
   is_Some (protocolFor serialization) /\
   exists cfg,
     wsCfg = Some cfg /\ ProxyURL cfg <> ""%string /\
     url_Parse (ProxyURL cfg) = None) /\
  (ConnectWebsocketPeerContext ctx routerURL serialization tlsConfig dial
     wsCfg = inl ErrDial <->
   exists protocol payloadType serializer dialer,
     protocolFor serialization = Some (protocol, payloadType, serializer) /\
     makeDialer protocol tlsConfig dial wsCfg = inr dialer /\
     Dial dialer (match ctx with
                  | None => CallDialContext
                  | Some _ => CallDial
                  end) routerURL = None).
Proof.
  unfold ConnectWebsocketPeerContext, makeDialer.
  destruct (protocolFor serialization) as [[[protocol pt] sz]|] eqn:Hp.
  - assert (is_Some (Some (protocol, pt, sz))) as Hs by (by eexists).
    destruct wsCfg as [cfg|].
    + destruct (String.eqb (ProxyURL cfg) "") eqn:He.
      * apply String.eqb_eq in He. simpl.
        destruct (Dial _ _ routerURL) as [conn|] eqn:Hc.
        -- split; [|split]; [intros s|..]; (split; [done|]).
           ++ by intros [_ ?].
           ++ intros (_ & cfg' & ? & Hn & _). by simplify_eq.
           ++ intros (? & ? & ? & ? & ? & ? & Hc'). simplify_eq.
        -- split; [|split]; [intros s; split; [done|]|split; [done|]|].
           ++ by intros [_ ?].
           ++ intros (_ & cfg' & ? & Hn & _). by simplify_eq.
           ++ split; [|done]. intros _. by eexists protocol, pt, sz, _.
      * apply String.eqb_neq in He.
        destruct (url_Parse (ProxyURL cfg)) as [u|] eqn:Hu; simpl.
        -- destruct (Dial _ _ routerURL) as [conn|] eqn:Hc.
           ++ split; [|split]; [intros s|..]; (split; [done|]).
              ** by intros [_ ?].
              ** intros (_ & cfg' & ? & _ & Hu'). simplify_eq.
              ** intros (? & ? & ? & ? & ? & ? & Hc'). simplify_eq.
           ++ split; [|split]; [intros s; split; [done|]|split; [done|]|].
              ** by intros [_ ?].
              ** intros (_ & cfg' & ? & _ & Hu'). simplify_eq.
              ** split; [|done]. intros _. by eexists protocol, pt, sz, _.
        -- split; [|split]; [intros s; split; [done|]| |split; [done|]].
           ++ by intros [_ ?].
           ++ split; [|done]. intros _. split; [done|]. by exists cfg.
           ++ intros (? & ? & ? & ? & ? & ? & _). simplify_eq.
    + simpl. destruct (Dial _ _ routerURL) as [conn|] eqn:Hc.
      * split; [|split]; [intros s|..]; (split; [done|]).
        -- by intros [_ ?].
        -- by intros (_ & cfg' & ? & _).
        -- intros (? & ? & ? & ? & ? & ? & Hc'). simplify_eq.
      * split; [|split]; [intros s; split; [done|]|split; [done|]|].
        -- by intros [_ ?].
        -- by intros (_ & cfg' & ? & _).
        -- split; [|done]. intros _. by eexists protocol, pt, sz, _.
  - split; [|split].
    + intros s. split; [by intros [= <-]|by intros [-> _]].
    + split; [done|]. by intros [[? ?] _].
    + split; [done|]. by intros (? & ? & ? & ? & ? & _).
Qed.

(** X21.  The dialer passes the TLS configuration and the dial function
    on as they are.  Without a configuration it takes the proxy from the
    environment, has no cookie jar and does not ask for compression; with
    one it takes the jar of the configuration, and the proxy of the
    configuration's URL when that is not empty, the proxy of the
    environment when it is. *)
Theorem dialer_settings protocol tlsConfig dial (wsCfg : option ConfigT)
    (dialer : DialerT) :
  makeDialer protocol tlsConfig dial wsCfg = inr dialer ->
  Subprotocols dialer = [protocol] /\
  TLSClientConfig dialer = tlsConfig /\ NetDial dialer = dial /\
  match wsCfg with
  | None =>
      Proxy dialer = ProxyFromEnvironment /\ Dialer_Jar dialer = None /\
      Dialer_EnableCompression dialer = false
  | Some cfg =>
      Dialer_Jar dialer = Jar cfg /\
      (ProxyURL cfg = ""%string -> Proxy dialer = ProxyFromEnvironment) /\
      (ProxyURL cfg <> ""%string ->
       exists u, url_Parse (ProxyURL cfg) = Some u /\
                 Proxy dialer = http_ProxyURL u)
  end.
Proof.
  unfold makeDialer. intros H. destruct wsCfg as [cfg|].
  - destruct (String.eqb (ProxyURL cfg) "") eqn:He.
    + apply String.eqb_eq in He. simplify_eq. simpl. by repeat split.
    + apply String.eqb_neq in He.
      destruct (url_Parse (ProxyURL cfg)) as [u|] eqn:Hu; [|done].
      simplify_eq. simpl. repeat split; try done. intros _. by exists u.
  - simplify_eq. simpl. by repeat split.
Qed.

End ConnectFacts.

(** ** A peer made by the connect functions *)

Section ConnectedPeer.

Context {Message TLSConfig CookieJar URL NetConn Conn Ctx : Type}.
Variable Serialize : Message -> option bytes.
Variable Deserialize : bytes -> option Message.
Variable IsGoodbyeAck : Message -> bool.
Variable url_Parse : string -> option URL.
Variable Dial :
  Dialer (TLSConfig := TLSConfig) (CookieJar := CookieJar) (URL := URL)
    (NetConn := NetConn) -> DialCall -> string -> option Conn.

Lemma countb_zero {A} (p : A -> bool) l :
  countb p l = 0%nat -> Forall (fun x => p x = false) l.
Proof.
  induction l as [|x l IH]; [constructor|].
  change (x :: l) with ([x] ++ l). rewrite countb_app, countb_one.
  destruct (p x) eqn:E; [lia|]. intros H. constructor; [done|].
  apply IH. lia.
Qed.

(** X22.  A peer made by the connect functions runs without keepalive:
    no warning is logged when it is made, and in every state it reaches
    it has no ticker and no pong handler, has written no ping and has not
    panicked; every message it has written is a text or a binary
    frame. *)
Theorem connected_peer_is_plain (ctx : option Ctx) routerURL serialization
    tlsConfig dial wsCfg args evs (s : State (Message := Message)) :
  ConnectWebsocketPeerContext url_Parse Dial ctx routerURL serialization
    tlsConfig dial wsCfg = inr args ->
  run Serialize Deserialize IsGoodbyeAck (peer_payloadType args) evs
    (NewWebsocketPeer (peer_keepAlive args)) = Some s ->
  log (NewWebsocketPeer (Message := Message) (peer_keepAlive args)) = [] /\
  panicked s = false /\ ticker s = None /\ pongHandler s = false /\
  countb isPing (conn s) = 0%nat /\
  Forall textOrBinary (conn s).
Proof.
  intros Hc Hr.
  assert (peer_keepAlive args = 0 /\
          (peer_payloadType args = TextMessage \/
           peer_payloadType args = BinaryMessage)) as [Hk Hpt].
  { unfold ConnectWebsocketPeerContext in Hc.
    destruct serialization; simpl in Hc; try done;
      repeat case_match; simplify_eq; simpl; auto. }
  rewrite Hk in *.
  apply Inv2_reachable in Hr as [HI HJ].
  destruct (J_ping _ _ _ _ _ _ HJ) as [_ H2 H3].
  destruct (H2 ltac:(lia)) as [Ht Hp]. destruct (H3 eq_refl) as [Hh Hn].
  repeat split; try done.
  pose proof (iw_conn _ _ _ (J_wf _ _ _ _ _ _ HJ)) as Hwf.
  apply countb_zero in Hp.
  rewrite Forall_forall in *. intros op Hin.
  specialize (Hwf op Hin). specialize (Hp op Hin).
  destruct op as [k b ok [m|]| |]; simpl in *; try done.
  destruct Hwf as [-> _]. done.
Qed.

End ConnectedPeer.

(** ** Examples *)

(** C1 on a run: two messages are sent, Close runs, and both frames are
    on the connection before the close frame. *)
Lemma graceful_drain_witness :
  Toy.run Toy.drainSchedule (Toy.new 0) = Some Toy.drainFinal /\
  closeFrameSent Toy.drainFinal = true /\
  (dataFrames (conn Toy.drainFinal)).*1 =
    [(Byte.x01, [Byte.x01]); (Byte.x02, [Byte.x02])] /\
  writerDone Toy.drainFinal = true /\ sendExited Toy.drainFinal /\
  countb (isSentinelBy Closer) (enq Toy.drainFinal) = 1%nat /\
  (forall pre op post,
      conn Toy.drainFinal = pre ++ op :: post -> isCloseFrame op = true ->
      dataFrames post = []) /\
  exists ms,
    (dataFrames (conn Toy.drainFinal)).*1 = encodeAll Toy.Serialize ms /\
    (Some <$> ms) `prefix_of` (enq Toy.drainFinal).*2 /\
    (send_pc Toy.drainFinal = SExited ExSentinel ->
     ((Some <$> ms) ++ [None]) `prefix_of` (enq Toy.drainFinal).*2 /\
     allOk (dataFrames (conn Toy.drainFinal)) = true).
Proof.
  split; [vm_compute; reflexivity|].
  split; [vm_compute; reflexivity|]. split; [vm_compute; reflexivity|].
  apply (graceful_drain Toy.Serialize Toy.Deserialize Toy.IsGoodbyeAck
           TextMessage 0 Toy.drainSchedule); vm_compute; reflexivity.
Defined.

(** C1 as stated fails: a message the codec rejects is dropped by the
    pump, and Close sends the close frame all the same. *)
Lemma graceful_drain_as_stated_fails :
  ~ gracefulDrainAsStated Toy.Serialize Toy.Deserialize Toy.IsGoodbyeAck
      TextMessage.
Proof.
  intros H.
  assert (Toy.run Toy.dropSchedule (Toy.new 0) = Some Toy.dropFinal) as E
    by (vm_compute; reflexivity).
  assert (closeFrameSent Toy.dropFinal = true) as C
    by (vm_compute; reflexivity).
  specialize (H 0 Toy.dropSchedule Toy.dropFinal E C).
  vm_compute in H. discriminate H.
Qed.

(** C2 on a run: Close and the Inbound Pump both close the connection. *)
Lemma conn_close_counts_witness :
  Toy.run Toy.closeTwiceSchedule (Toy.new 0) = Some Toy.closeTwiceFinal /\
  connCloses Toy.closeTwiceFinal = 2%nat /\
  (countb (isConnClose Closer) (conn Toy.closeTwiceFinal) <= 1)%nat /\
  (countb (isConnClose InboundPump) (conn Toy.closeTwiceFinal) <= 1)%nat.
Proof.
  split; [vm_compute; reflexivity|]. split; [vm_compute; reflexivity|].
  pose proof (conn_close_counts Toy.Serialize Toy.Deserialize
                Toy.IsGoodbyeAck TextMessage 0 Toy.closeTwiceSchedule
                Toy.closeTwiceFinal) as H.
  destruct H as (H1 & H2 & _); [vm_compute; reflexivity|].
  split; [exact H1|exact H2].
Defined.

(** C2 as stated fails: Close closes the connection, the read of the
    Inbound Pump fails on it, and the pump's deferred [conn.Close] closes
    it a second time. *)
Lemma closed_once_as_stated_fails :
  ~ closedOnceAsStated Toy.Serialize Toy.Deserialize Toy.IsGoodbyeAck
      TextMessage.
Proof.
  intros H.
  assert (Toy.run Toy.closeTwiceSchedule (Toy.new 0)
          = Some Toy.closeTwiceFinal) as E by (vm_compute; reflexivity).
  destruct (H 0 Toy.closeTwiceSchedule Toy.closeTwiceFinal E) as [H1 _].
  vm_compute in H1. lia.
Qed.

(** C7 on a run in which Close and the Inbound Pump both send their
    sentinel. *)
Lemma sentinel_discipline_witness :
  Toy.run Toy.bothSentinelsSchedule (Toy.new 0)
    = Some Toy.bothSentinelsFinal /\
  countb isPeerSentinel (enq Toy.bothSentinelsFinal) = 2%nat /\
  (countb isNil (enq Toy.bothSentinelsFinal) <= 2)%nat /\
  wr_closed Toy.bothSentinelsFinal = false.
Proof.
  split; [vm_compute; reflexivity|]. split; [vm_compute; reflexivity|].
  pose proof (sentinel_discipline Toy.Serialize Toy.Deserialize
                Toy.IsGoodbyeAck TextMessage 0 Toy.bothSentinelsSchedule
                Toy.bothSentinelsFinal) as H.
  destruct H as (_ & _ & _ & _ & H5 & _ & H7); [vm_compute; reflexivity|].
  split; [apply H5; vm_compute; reflexivity|exact H7].
Defined.

(** C10 on a run: a nil is sent on a new peer and Close is never called. *)
Lemma nil_message_is_sentinel_witness :
  exists s',
    Toy.exec EvSendDeq Toy.nilSentFinal = Some s' /\
    send_pc s' = SExited ExSentinel /\ writerDone s' = true /\
    conn s' = [] /\ close_pc s' = CNotCalled /\ closed s' = false.
Proof.
  destruct (nil_message_is_sentinel Toy.Serialize Toy.Deserialize
              Toy.IsGoodbyeAck TextMessage Toy.nilSentFinal [])
    as [_ (s' & E & H1 & H2 & _ & _ & H5 & _ & H7 & H8 & _)];
    try (vm_compute; reflexivity).
  exists s'. repeat split; assumption.
Defined.

(** C4 on a new peer whose pump has not started. *)
Lemma trysend_backpressure_witness :
  exists s1 s2 s3,
    Toy.run (EvTrySend <$> replicate outQueueSize (Some Byte.x01))
      (Toy.new 0) = Some s1 /\
    Toy.exec (EvTrySend (Some Byte.x02)) s1 = Some s2 /\
    Toy.exec (EvTryWake 0) s2 = None /\
    Toy.exec (EvTryTimeout 0) s2 = Some s3 /\
    returns s3 =
      (TryFast <$> replicate outQueueSize (Some Byte.x01))
        ++ [TryBlocked (Some Byte.x02)] /\
    wr s3 = replicate outQueueSize (Some Byte.x01) /\
    conn s3 = [].
Proof.
  destruct (trysend_backpressure Toy.Serialize Toy.Deserialize
              Toy.IsGoodbyeAck TextMessage (Toy.new 0)
              (replicate outQueueSize (Some Byte.x01)) (Some Byte.x02))
    as (s1 & s2 & s3 & E1 & _ & R1 & E2 & _ & _ & _ & Hw & E3 & R3 & W3
        & _ & C3 & _);
    try reflexivity.
  exists s1, s2, s3. split; [exact E1|]. split; [exact E2|].
  split; [apply (Hw [] s2); [constructor|reflexivity]|].
  split; [exact E3|]. split; [by rewrite R3, R1|].
  split; [exact W3|exact C3].
Defined.


(** C5 on a run: the Outbound Pump has returned on a failed write, one
    message is queued behind it, and the read fails; the queue has room,
    so the Inbound Pump can finish. *)
Lemma read_failure_path_witness :
  Toy.run Toy.lateDisconnectSchedule (Toy.new 0)
    = Some Toy.lateDisconnectFinal /\
  recv_pc Toy.lateDisconnectFinal = REnq /\
  send_pc Toy.lateDisconnectFinal = SExited ExWriteErr /\
  canFinish Toy.Serialize Toy.Deserialize Toy.IsGoodbyeAck TextMessage
    Toy.lateDisconnectFinal.
Proof.
  assert (Toy.run Toy.lateDisconnectSchedule (Toy.new 0)
          = Some Toy.lateDisconnectFinal) as E by (vm_compute; reflexivity).
  assert (panicked Toy.lateDisconnectFinal = false) as Hp
    by (vm_compute; reflexivity).
  assert (recv_pc Toy.lateDisconnectFinal = REnq) as Hr
    by (vm_compute; reflexivity).
  assert (send_pc Toy.lateDisconnectFinal = SExited ExWriteErr) as Hs
    by (vm_compute; reflexivity).
  assert (room Toy.lateDisconnectFinal = true) as Hroom
    by (vm_compute; reflexivity).
  pose proof (read_failure_path Toy.Serialize Toy.Deserialize
                Toy.IsGoodbyeAck TextMessage 0 Toy.lateDisconnectSchedule
                Toy.lateDisconnectFinal E Hp) as (_ & _ & _ & _ & _ & H6 & _).
  split; [exact E|]. split; [exact Hr|]. split; [exact Hs|].
  apply (H6 Hr). split.
  - intros [_ Hn]. rewrite Hroom in Hn. discriminate Hn.
  - intros (k & Hk & _). rewrite Hs in Hk. discriminate Hk.
Defined.

(** C5 as stated fails: the Outbound Pump has returned on a failed write,
    the queue has filled up behind it, and the Inbound Pump blocks for
    ever in its send of the sentinel. *)
Lemma no_deadlock_as_stated_fails :
  ~ noDeadlockAsStated Toy.Serialize Toy.Deserialize Toy.IsGoodbyeAck
      TextMessage.
Proof.
  intros H.
  assert (Toy.run Toy.deadlockSchedule (Toy.new 0) = Some Toy.deadlockFinal)
    as E by (vm_compute; reflexivity).
  assert (recv_pc Toy.deadlockFinal = REnq) as Hr
    by (vm_compute; reflexivity).
  destruct (H 0 Toy.deadlockSchedule Toy.deadlockFinal E Hr)
    as (evs' & s' & E' & Hd).
  assert (stuck Toy.deadlockFinal) as Hs.
  { split; [done|]. split; [vm_compute; reflexivity|].
    exists ExWriteErr. vm_compute; reflexivity. }
  destruct (stuck_run _ _ _ _ _ _ _ Hs E') as [Hr' _]. congruence.
Qed.


(** C8 at a configuration with compression disabled. *)
Lemma compression_ignores_config_witness :
  let cfg : WebsocketConfig (CookieJar := unit) :=
    {| EnableCompression := false; Jar := None; ProxyURL := "";
       EnableTrackingCookie := false; EnableRequestCapture := false |} in
  exists dialer : Dialer (TLSConfig := unit) (URL := unit) (NetConn := unit),
    makeDialer (fun _ => Some tt) jsonWebsocketProtocol None None (Some cfg)
      = inr dialer /\
    EnableCompression cfg = false /\
    Dialer_EnableCompression dialer = true.
Proof.
  intros cfg.
  exists {| Subprotocols := [jsonWebsocketProtocol];
            TLSClientConfig := None; Proxy := ProxyFromEnvironment;
            NetDial := None; Dialer_Jar := None;
            Dialer_EnableCompression := true |}.
  split; [reflexivity|]. split; [reflexivity|].
  eapply (compression_ignores_config (Conn := unit) (Ctx := unit)
            (fun _ => Some tt) (fun _ _ _ => None) jsonWebsocketProtocol
            None None cfg).
  reflexivity.
Defined.

(** C9 at half a second. *)
Lemma short_keepalive_warns_witness :
  log (Toy.new 500000000) = [shortKeepaliveWarning] /\
  exists s,
    Toy.exec EvSendStart (Toy.new 500000000) = Some s /\
    ticker s = Some 500000000.
Proof.
  destruct (short_keepalive_warns Toy.Serialize Toy.Deserialize
              Toy.IsGoodbyeAck TextMessage 500000000)
    as (H1 & _ & _ & s & E & _ & _ & H4 & _);
    [lia|reflexivity|].
  split; [exact H1|]. exists s. split; assumption.
Defined.

(** C9 as stated fails: a negative interval is non-zero and below one
    second; the warning is logged and the pump spawned, and the pump
    panics when it makes its ticker. *)
Lemma short_keepalive_as_stated_fails :
  ~ shortKeepaliveAsStated Toy.Serialize Toy.Deserialize Toy.IsGoodbyeAck
      TextMessage.
Proof.
  intros H. destruct (H (-1)) as (_ & s & E & Hp & _); [lia|reflexivity|].
  vm_compute in E. injection E as <-. discriminate Hp.
Qed.

(** X1 on the run of two messages and a Close. *)
Lemma outbound_fifo_witness :
  Toy.run Toy.drainSchedule (Toy.new 0) = Some Toy.drainFinal /\
  dequeuedMsgs Toy.drainFinal = [Byte.x01; Byte.x02] /\
  (dataFrames (conn Toy.drainFinal)).*1 ++ inflight Toy.drainFinal
    = encodeAll Toy.Serialize (dequeuedMsgs Toy.drainFinal) /\
  deq Toy.drainFinal ++ wr Toy.drainFinal = (enq Toy.drainFinal).*2.
Proof.
  assert (Toy.run Toy.drainSchedule (Toy.new 0) = Some Toy.drainFinal) as E
    by (vm_compute; reflexivity).
  pose proof (outbound_fifo Toy.Serialize Toy.Deserialize Toy.IsGoodbyeAck
                TextMessage 0 Toy.drainSchedule Toy.drainFinal E)
    as (H1 & _ & H3).
  split; [exact E|]. split; [vm_compute; reflexivity|].
  split; [exact H1|exact H3].
Defined.

(** X2 on the run in which the message does not encode. *)
Lemma no_silent_drop_witness :
  Toy.run Toy.dropSchedule (Toy.new 0) = Some Toy.dropFinal /\
  dequeuedMsgs Toy.dropFinal = [Byte.x00] /\
  dataFrames (conn Toy.dropFinal) = [] /\
  serializeErrs (log Toy.dropFinal)
    = rejected Toy.Serialize (dequeuedMsgs Toy.dropFinal).
Proof.
  assert (Toy.run Toy.dropSchedule (Toy.new 0) = Some Toy.dropFinal) as E
    by (vm_compute; reflexivity).
  pose proof (no_silent_drop Toy.Serialize Toy.Deserialize Toy.IsGoodbyeAck
                TextMessage 0 Toy.dropSchedule Toy.dropFinal E) as (H1 & _).
  split; [exact E|]. split; [vm_compute; reflexivity|].
  split; [vm_compute; reflexivity|exact H1].
Defined.

(** X3 on a run in which the second frame is corrupted and the third
    message is lost to the grace period. *)
Lemma inbound_fifo_witness :
  Toy.run Toy.graceSchedule (Toy.new 0) = Some Toy.graceFinal /\
  delivered Toy.graceFinal = [Byte.x01] /\
  decodeAll Toy.Deserialize (reads Toy.graceFinal) = [Byte.x01; Byte.x02] /\
  closed Toy.graceFinal = true /\
  deserializeErrs (log Toy.graceFinal)
    = undecodable Toy.Deserialize (reads Toy.graceFinal).
Proof.
  assert (Toy.run Toy.graceSchedule (Toy.new 0) = Some Toy.graceFinal) as E
    by (vm_compute; reflexivity).
  assert (recv_pc Toy.graceFinal = RDone) as Hr by (vm_compute; reflexivity).
  assert (delivered Toy.graceFinal = [Byte.x01]) as Hd
    by (vm_compute; reflexivity).
  assert (decodeAll Toy.Deserialize (reads Toy.graceFinal)
          = [Byte.x01; Byte.x02]) as Hf by (vm_compute; reflexivity).
  pose proof (inbound_fifo Toy.Serialize Toy.Deserialize Toy.IsGoodbyeAck
                TextMessage 0 Toy.graceSchedule Toy.graceFinal E)
    as ((pend & H1 & _ & H3) & H4).
  split; [exact E|]. split; [exact Hd|]. split; [exact Hf|].
  split; [|exact H4].
  apply (H3 Hr). intros ->. rewrite Hd, Hf in H1. discriminate H1.
Defined.

(** X4 on the run that fills the queue behind a pump that has returned. *)
Lemma queue_bound_witness :
  Toy.run Toy.deadlockSchedule (Toy.new 0) = Some Toy.deadlockFinal /\
  length (wr Toy.deadlockFinal) = outQueueSize /\
  Toy.exec (EvSend (Some Byte.x03)) Toy.deadlockFinal = None /\
  Toy.exec EvCloseEnq Toy.deadlockFinal = None /\
  Toy.exec EvRecvEnq Toy.deadlockFinal = None.
Proof.
  assert (Toy.run Toy.deadlockSchedule (Toy.new 0) = Some Toy.deadlockFinal)
    as E by (vm_compute; reflexivity).
  assert (length (wr Toy.deadlockFinal) = outQueueSize) as Hl
    by (vm_compute; reflexivity).
  pose proof (queue_bound Toy.Serialize Toy.Deserialize Toy.IsGoodbyeAck
                TextMessage 0 Toy.deadlockSchedule Toy.deadlockFinal E)
    as (_ & H2).
  split; [exact E|]. split; [exact Hl|].
  exact (H2 Hl (Some Byte.x03)).
Defined.

(** X5 on a keepalive peer with two pings unanswered. *)
Lemma pong_counter_range_witness :
  Toy.run Toy.twoPingsSchedule (Toy.new 5) = Some Toy.twoPingsFinal /\
  pendingPongs Toy.twoPingsFinal = 2 /\
  wrap32 (pendingPongs Toy.twoPingsFinal + 1)
    = pendingPongs Toy.twoPingsFinal + 1.
Proof.
  assert (Toy.run Toy.twoPingsSchedule (Toy.new 5) = Some Toy.twoPingsFinal)
    as E by (vm_compute; reflexivity).
  pose proof (pong_counter_range Toy.Serialize Toy.Deserialize
                Toy.IsGoodbyeAck TextMessage 5 Toy.twoPingsSchedule
                Toy.twoPingsFinal E) as (_ & H2).
  split; [exact E|]. split; [vm_compute; reflexivity|exact H2].
Defined.

(** X6 on the run of two messages and a Close. *)
Lemma writer_done_iff_witness :
  Toy.run Toy.drainSchedule (Toy.new 0) = Some Toy.drainFinal /\
  writerDone Toy.drainFinal = true /\ sendExited Toy.drainFinal.
Proof.
  assert (Toy.run Toy.drainSchedule (Toy.new 0) = Some Toy.drainFinal) as E
    by (vm_compute; reflexivity).
  assert (panicked Toy.drainFinal = false) as Hp
    by (vm_compute; reflexivity).
  assert (writerDone Toy.drainFinal = true) as Hw
    by (vm_compute; reflexivity).
  pose proof (writer_done_iff Toy.Serialize Toy.Deserialize
                Toy.IsGoodbyeAck TextMessage 0 Toy.drainSchedule
                Toy.drainFinal E Hp) as [H1 _].
  split; [exact E|]. split; [exact Hw|exact (H1 Hw)].
Defined.

(** X7 on the run in which the read fails after Close. *)
Lemma inbound_channel_closed_witness :
  Toy.run Toy.closeTwiceSchedule (Toy.new 0) = Some Toy.closeTwiceFinal /\
  rd_closed Toy.closeTwiceFinal = true /\
  recv_pc Toy.closeTwiceFinal = RDone /\
  countb (isConnClose InboundPump) (conn Toy.closeTwiceFinal) = 1%nat.
Proof.
  assert (Toy.run Toy.closeTwiceSchedule (Toy.new 0)
          = Some Toy.closeTwiceFinal) as E by (vm_compute; reflexivity).
  assert (rd_closed Toy.closeTwiceFinal = true) as Hc
    by (vm_compute; reflexivity).
  pose proof (inbound_channel_closed Toy.Serialize Toy.Deserialize
                Toy.IsGoodbyeAck TextMessage 0 Toy.closeTwiceSchedule
                Toy.closeTwiceFinal E) as ([H1 _] & H2).
  split; [exact E|]. split; [exact Hc|].
  split; [exact (H1 Hc)|exact (H2 Hc)].
Defined.

(** X8 on the run of two messages and a Close. *)
Lemma explicit_close_after_drain_witness :
  Toy.run Toy.drainSchedule (Toy.new 0) = Some Toy.drainFinal /\
  closed Toy.drainFinal = true /\
  writerDone Toy.drainFinal = true /\ sendExited Toy.drainFinal /\
  countb (isSentinelBy Closer) (enq Toy.drainFinal) = 1%nat.
Proof.
  assert (Toy.run Toy.drainSchedule (Toy.new 0) = Some Toy.drainFinal) as E
    by (vm_compute; reflexivity).
  assert (closed Toy.drainFinal = true) as Hc by (vm_compute; reflexivity).
  pose proof (explicit_close_after_drain Toy.Serialize Toy.Deserialize
                Toy.IsGoodbyeAck TextMessage 0 Toy.drainSchedule
                Toy.drainFinal E Hc) as H.
  split; [exact E|]. split; [exact Hc|exact H].
Defined.

(** X9 on a message sent after the pump has returned on the sentinel of
    Close. *)
Lemma nothing_after_return_witness :
  Toy.run [EvSend (Some Byte.x01)] Toy.dropFinal = Some Toy.lateSendFinal /\
  wr Toy.lateSendFinal = [Some Byte.x01] /\
  send_pc Toy.lateSendFinal = send_pc Toy.dropFinal /\
  dataFrames (conn Toy.lateSendFinal) = dataFrames (conn Toy.dropFinal) /\
  deq Toy.lateSendFinal = deq Toy.dropFinal.
Proof.
  assert (Toy.run [EvSend (Some Byte.x01)] Toy.dropFinal
          = Some Toy.lateSendFinal) as E by (vm_compute; reflexivity).
  assert (sendExited Toy.dropFinal) as Hx
    by (exists ExSentinel; vm_compute; reflexivity).
  pose proof (nothing_after_return Toy.Serialize Toy.Deserialize
                Toy.IsGoodbyeAck TextMessage [EvSend (Some Byte.x01)]
                Toy.dropFinal Toy.lateSendFinal Hx E)
    as (H1 & H2 & _ & H4 & _).
  split; [exact E|]. split; [vm_compute; reflexivity|].
  split; [exact H1|]. split; [exact H2|exact H4].
Defined.

(** X10 on the jammed peer: a TrySend waits, Close is called, and the
    TrySend gives up. *)
Lemma jammed_forever_witness :
  Toy.run Toy.jammedSchedule Toy.deadlockFinal = Some Toy.jammedFinal /\
  wr Toy.jammedFinal = wr Toy.deadlockFinal /\
  Toy.exec (EvSend (Some Byte.x04)) Toy.jammedFinal = None /\
  Toy.exec EvCloseEnq Toy.jammedFinal = None /\
  Toy.exec EvRecvEnq Toy.jammedFinal = None.
Proof.
  assert (Toy.run Toy.jammedSchedule Toy.deadlockFinal
          = Some Toy.jammedFinal) as E by (vm_compute; reflexivity).
  assert (jammed Toy.deadlockFinal) as Hj.
  { split; [vm_compute; reflexivity|].
    exists ExWriteErr. vm_compute; reflexivity. }
  pose proof (jammed_forever Toy.Serialize Toy.Deserialize Toy.IsGoodbyeAck
                TextMessage Toy.jammedSchedule Toy.deadlockFinal
                Toy.jammedFinal Hj E) as (H1 & H2).
  destruct (H2 (Some Byte.x04) 0%nat) as (A1 & _ & A3 & A4).
  split; [exact E|]. split; [exact H1|].
  split; [exact A1|]. split; [exact A3|exact A4].
Defined.

(** X11 on a peer whose remote has disconnected while a message is
    queued: Close has not been called yet. *)
Lemma close_can_finish_witness :
  Toy.run Toy.disconnectSchedule (Toy.new 0) = Some Toy.disconnectFinal /\
  close_pc Toy.disconnectFinal = CNotCalled /\
  (enq Toy.disconnectFinal).*2 = [Some Byte.x01] /\
  exists evs' s',
    Toy.run evs' Toy.disconnectFinal = Some s' /\
    close_pc s' = CDone /\ closed s' = true /\ closeFrameSent s' = true /\
    enq s' = enq Toy.disconnectFinal ++ [(Closer, None)] /\
    send_pc s' = SExited ExSentinel /\
    exists ms,
      (enq Toy.disconnectFinal).*2 ++ [None]
        = (Some <$> ms) ++ None :: wr s' /\
      (dataFrames (conn s')).*1 = encodeAll Toy.Serialize ms /\
      allOk (dataFrames (conn s')) = true.
Proof.
  assert (Toy.run Toy.disconnectSchedule (Toy.new 0)
          = Some Toy.disconnectFinal) as E by (vm_compute; reflexivity).
  assert (panicked Toy.disconnectFinal = false) as Hp
    by (vm_compute; reflexivity).
  assert (pumpRunning Toy.disconnectFinal) as Hs
    by (left; vm_compute; reflexivity).
  assert (close_pc Toy.disconnectFinal = CNotCalled) as Hc
    by (vm_compute; reflexivity).
  pose proof (close_can_finish Toy.Serialize Toy.Deserialize
                Toy.IsGoodbyeAck TextMessage 0 Toy.disconnectSchedule
                Toy.disconnectFinal E Hp Hs (or_introl Hc)) as H.
  split; [exact E|]. split; [exact Hc|].
  split; [vm_compute; reflexivity|exact H].
Defined.

(** X12 on the run of two messages and a Close. *)
Lemma frames_well_formed_witness :
  Toy.run Toy.drainSchedule (Toy.new 0) = Some Toy.drainFinal /\
  length (conn Toy.drainFinal) = 3%nat /\
  Forall (wfOp Toy.Serialize TextMessage) (conn Toy.drainFinal).
Proof.
  assert (Toy.run Toy.drainSchedule (Toy.new 0) = Some Toy.drainFinal) as E
    by (vm_compute; reflexivity).
  pose proof (frames_well_formed Toy.Serialize Toy.Deserialize
                Toy.IsGoodbyeAck TextMessage 0 Toy.drainSchedule
                Toy.drainFinal E) as (H1 & _).
  split; [exact E|]. split; [vm_compute; reflexivity|exact H1].
Defined.

(** X13 on a run in which Close returns. *)
Lemma one_close_frame_witness :
  Toy.run Toy.closeTwiceSchedule (Toy.new 0) = Some Toy.closeTwiceFinal /\
  close_pc Toy.closeTwiceFinal = CDone /\
  countb isCloseFrame (conn Toy.closeTwiceFinal) = 1%nat /\
  countb (isConnClose Closer) (conn Toy.closeTwiceFinal) = 1%nat /\
  frameBeforeClose (conn Toy.closeTwiceFinal) = true.
Proof.
  assert (Toy.run Toy.closeTwiceSchedule (Toy.new 0)
          = Some Toy.closeTwiceFinal) as E by (vm_compute; reflexivity).
  assert (close_pc Toy.closeTwiceFinal = CDone) as Hc
    by (vm_compute; reflexivity).
  pose proof (one_close_frame Toy.Serialize Toy.Deserialize
                Toy.IsGoodbyeAck TextMessage 0 Toy.closeTwiceSchedule
                Toy.closeTwiceFinal E) as (_ & H2 & _ & H4).
  destruct (H4 Hc) as [A1 A2].
  split; [exact E|]. split; [exact Hc|]. split; [exact A1|].
  split; [exact A2|exact H2].
Defined.

(** X14 on the run in which the first write fails. *)
Lemma write_error_is_final_witness :
  Toy.run Toy.deadlockSchedule (Toy.new 0) = Some Toy.deadlockFinal /\
  send_pc Toy.deadlockFinal = SExited ExWriteErr /\
  exists pre m b,
    dataFrames (conn Toy.deadlockFinal) = pre ++ [(m, b, false)] /\
    allOk pre = true /\
    writeErrs (log Toy.deadlockFinal)
      = if Toy.IsGoodbyeAck m then [] else [m].
Proof.
  assert (Toy.run Toy.deadlockSchedule (Toy.new 0) = Some Toy.deadlockFinal)
    as E by (vm_compute; reflexivity).
  assert (send_pc Toy.deadlockFinal = SExited ExWriteErr) as Hs
    by (vm_compute; reflexivity).
  pose proof (write_error_is_final Toy.Serialize Toy.Deserialize
                Toy.IsGoodbyeAck TextMessage 0 Toy.deadlockSchedule
                Toy.deadlockFinal E) as (H1 & _).
  split; [exact E|]. split; [exact Hs|exact (H1 Hs)].
Defined.


(** X16 on the run of two messages and a Close, made without keepalive. *)
Lemma no_keepalive_no_ping_witness :
  Toy.run Toy.drainSchedule (Toy.new 0) = Some Toy.drainFinal /\
  ticker Toy.drainFinal = None /\
  countb isPing (conn Toy.drainFinal) = 0%nat /\
  pongHandler Toy.drainFinal = false /\ panicked Toy.drainFinal = false.
Proof.
  assert (Toy.run Toy.drainSchedule (Toy.new 0) = Some Toy.drainFinal) as E
    by (vm_compute; reflexivity).
  assert (0 <= 0) as Hk by lia.
  pose proof (no_keepalive_no_ping Toy.Serialize Toy.Deserialize
                Toy.IsGoodbyeAck TextMessage 0 Toy.drainSchedule
                Toy.drainFinal E Hk) as (H1 & H2 & H3).
  split; [exact E|]. split; [exact H1|]. split; [exact H2|].
  exact (H3 eq_refl).
Defined.

(** X17 on a keepalive peer whose remote never answers. *)
Lemma pump_closes_on_timeout_only_witness :
  Toy.run Toy.timeoutSchedule (Toy.new 5) = Some Toy.timeoutFinal /\
  send_pc Toy.timeoutFinal = SExited ExPongTimeout /\
  countb (isConnClose OutboundPump) (conn Toy.timeoutFinal) = 1%nat.
Proof.
  assert (Toy.run Toy.timeoutSchedule (Toy.new 5) = Some Toy.timeoutFinal)
    as E by (vm_compute; reflexivity).
  assert (send_pc Toy.timeoutFinal = SExited ExPongTimeout) as Hs
    by (vm_compute; reflexivity).
  pose proof (pump_closes_on_timeout_only Toy.Serialize Toy.Deserialize
                Toy.IsGoodbyeAck TextMessage 5 Toy.timeoutSchedule
                Toy.timeoutFinal E) as ([_ H1] & _).
  split; [exact E|]. split; [exact Hs|exact (H1 Hs)].
Defined.

(** X18 on one Send and seventeen calls of TrySend, two of which give
    up. *)
Lemma trysend_accounting_witness :
  Toy.run Toy.trySchedule (Toy.new 0) = Some Toy.tryFinal /\
  length (returns Toy.tryFinal) = 17%nat /\
  countb isTryOk (returns Toy.tryFinal) = 15%nat /\
  (length (returns Toy.tryFinal) + length (trywait Toy.tryFinal))%nat
    = countb isTrySendEv Toy.trySchedule /\
  countb byProducer (enq Toy.tryFinal)
    = (countb isSendEv Toy.trySchedule
       + countb isTryOk (returns Toy.tryFinal))%nat.
Proof.
  assert (Toy.run Toy.trySchedule (Toy.new 0) = Some Toy.tryFinal) as E
    by (vm_compute; reflexivity).
  pose proof (trysend_accounting Toy.Serialize Toy.Deserialize
                Toy.IsGoodbyeAck TextMessage 0 Toy.trySchedule Toy.tryFinal E)
    as H.
  split; [exact E|]. split; [vm_compute; reflexivity|].
  split; [vm_compute; reflexivity|exact H].
Defined.

(** X19 on a MessagePack connect through a proxy, with a dialer that
    always answers. *)
Lemma connect_success_witness :
  let cfg : WebsocketConfig (CookieJar := unit) :=
    {| EnableCompression := false; Jar := None; ProxyURL := "proxy";
       EnableTrackingCookie := false; EnableRequestCapture := false |} in
  let args : PeerArgs (Conn := unit) :=
    {| peer_conn := tt; peer_serializer := MessagePackSerializer;
       peer_payloadType := BinaryMessage; peer_keepAlive := 0 |} in
  ConnectWebsocketPeerContext (TLSConfig := unit) (URL := string)
    (NetConn := unit) (Ctx := unit) Some (fun _ _ _ => Some tt) None
    "ws://router" MSGPACK None None (Some cfg) = inr args /\
  peer_keepAlive args = 0 /\
  exists protocol dialer,
    protocolFor MSGPACK
      = Some (protocol, peer_payloadType args, peer_serializer args) /\
    makeDialer (TLSConfig := unit) (URL := string) (NetConn := unit) Some
      protocol None None (Some cfg) = inr dialer /\
    Subprotocols dialer = [protocol].
Proof.
  intros cfg args.
  assert (ConnectWebsocketPeerContext (TLSConfig := unit) (URL := string)
            (NetConn := unit) (Ctx := unit) Some (fun _ _ _ => Some tt) None
            "ws://router" MSGPACK None None (Some cfg) = inr args) as E
    by reflexivity.
  pose proof (connect_success Some (fun _ _ _ => Some tt) None "ws://router"
                MSGPACK None None (Some cfg) args E)
    as (H1 & (protocol & dialer & A1 & A2 & A3 & _) & _).
  split; [exact E|]. split; [exact H1|].
  exists protocol, dialer. split; [exact A1|]. split; [exact A2|exact A3].
Defined.

(** X20 with a URL parser that rejects every proxy URL and a dialer that
    always answers. *)
Lemma connect_refusals_witness :
  let cfg : WebsocketConfig (CookieJar := unit) :=
    {| EnableCompression := false; Jar := None; ProxyURL := "proxy";
       EnableTrackingCookie := false; EnableRequestCapture := false |} in
  ConnectWebsocketPeerContext (TLSConfig := unit) (URL := unit)
    (NetConn := unit) (Conn := unit) (Ctx := unit) (fun _ => None)
    (fun _ _ _ => Some tt) None "ws://router" (OtherSerialization 7) None
    None (Some cfg)
    = inl (ErrUnsupportedSerialization (OtherSerialization 7)) /\
  ConnectWebsocketPeerContext (TLSConfig := unit) (URL := unit)
    (NetConn := unit) (Conn := unit) (Ctx := unit) (fun _ => None)
    (fun _ _ _ => Some tt) None "ws://router" CBOR None None (Some cfg)
    = inl ErrParseProxyURL.
Proof.
  intros cfg.
  pose proof (connect_refusals (TLSConfig := unit) (CookieJar := unit)
                (URL := unit) (NetConn := unit) (Conn := unit) (Ctx := unit)
                (fun _ => None) (fun _ _ _ => Some tt) None "ws://router"
                (OtherSerialization 7) None None (Some cfg)) as [H1 _].
  pose proof (connect_refusals (TLSConfig := unit) (CookieJar := unit)
                (URL := unit) (NetConn := unit) (Conn := unit) (Ctx := unit)
                (fun _ => None) (fun _ _ _ => Some tt) None "ws://router"
                CBOR None None (Some cfg)) as (_ & H2 & _).
  split.
  - apply H1. split; reflexivity.
  - apply H2. split; [by eexists|]. exists cfg.
    split; [reflexivity|]. split; [discriminate|reflexivity].
Defined.

(** X21 at a configuration with a proxy URL and a cookie jar. *)
Lemma dialer_settings_witness :
  let cfg : WebsocketConfig (CookieJar := nat) :=
    {| EnableCompression := false; Jar := Some 3%nat; ProxyURL := "proxy";
       EnableTrackingCookie := false; EnableRequestCapture := false |} in
  exists dialer : Dialer (TLSConfig := unit) (URL := string) (NetConn := unit),
    makeDialer Some cborWebsocketProtocol (Some tt) None (Some cfg)
      = inr dialer /\
    Subprotocols dialer = [cborWebsocketProtocol] /\
    TLSClientConfig dialer = Some tt /\ NetDial dialer = None /\
    Dialer_Jar dialer = Some 3%nat /\
    exists u, Some (ProxyURL cfg) = Some u /\ Proxy dialer = http_ProxyURL u.
Proof.
  intros cfg.
  exists {| Subprotocols := [cborWebsocketProtocol];
            TLSClientConfig := Some tt; Proxy := http_ProxyURL "proxy"%string;
            NetDial := None; Dialer_Jar := Some 3%nat;
            Dialer_EnableCompression := true |}.
  assert (makeDialer (TLSConfig := unit) (URL := string) (NetConn := unit)
            Some cborWebsocketProtocol (Some tt) None (Some cfg)
          = inr {| Subprotocols := [cborWebsocketProtocol];
                   TLSClientConfig := Some tt;
                   Proxy := http_ProxyURL "proxy"%string;
                   NetDial := None; Dialer_Jar := Some 3%nat;
                   Dialer_EnableCompression := true |}) as E by reflexivity.
  pose proof (dialer_settings Some cborWebsocketProtocol (Some tt) None
                (Some cfg) _ E) as (H1 & H2 & H3 & H4 & _ & H6).
  split; [exact E|]. split; [exact H1|]. split; [exact H2|].
  split; [exact H3|]. split; [exact H4|].
  apply H6. discriminate.
Defined.

(** X22 on a JSON connect, followed by the run of two messages and a
    Close. *)
Lemma connected_peer_is_plain_witness :
  let args : PeerArgs (Conn := unit) :=
    {| peer_conn := tt; peer_serializer := JSONSerializer;
       peer_payloadType := TextMessage; peer_keepAlive := 0 |} in
  ConnectWebsocketPeer (TLSConfig := unit) (CookieJar := unit) (URL := unit)
    (NetConn := unit) (Ctx := unit) (fun _ => None) (fun _ _ _ => Some tt)
    "ws://router" JSON None None None = inr args /\
  Toy.run Toy.drainSchedule (Toy.new (peer_keepAlive args))
    = Some Toy.drainFinal /\
  ticker Toy.drainFinal = None /\
  countb isPing (conn Toy.drainFinal) = 0%nat /\
  Forall textOrBinary (conn Toy.drainFinal).
Proof.
  intros args.
  assert (ConnectWebsocketPeerContext (TLSConfig := unit) (CookieJar := unit)
            (URL := unit) (NetConn := unit) (Ctx := unit) (fun _ => None)
            (fun _ _ _ => Some tt) None "ws://router" JSON None None None
          = inr args) as Ec by reflexivity.
  assert (run Toy.Serialize Toy.Deserialize Toy.IsGoodbyeAck
            (peer_payloadType args) Toy.drainSchedule
            (NewWebsocketPeer (peer_keepAlive args)) = Some Toy.drainFinal)
    as Er by (vm_compute; reflexivity).
  pose proof (connected_peer_is_plain Toy.Serialize Toy.Deserialize
                Toy.IsGoodbyeAck (fun _ => None) (fun _ _ _ => Some tt) None
                "ws://router" JSON None None None args Toy.drainSchedule
                Toy.drainFinal Ec Er) as (_ & _ & H3 & _ & H5 & H6).
  split; [exact Ec|]. split; [exact Er|]. split; [exact H3|].
  split; [exact H5|exact H6].
Defined.
